(** * Verification of the document store core of rust_pure_web

    Shallow embedding of [src/db.rs], [src/crypto.rs] and the collection
    handler of [src/api/collections.rs].

    - Rust [String]s are Coq [string]s read as their UTF-8 byte sequence
      ([String.list_byte_of_string]); [s.len()] is the byte length.
    - Byte buffers ([Vec<u8>], [[u8; N]]) are [list Byte.byte].
    - [u32], [u64], [i64] are [Z] with the wrap-around written out.
    - [HashMap<String, Document>] and [HashMap<String, Schema>] are stdpp
      [gmap]s; a [Document] (the map nested inside [Value::Object]) is an
      association list with unique keys, whose order is the iteration order.
    - A Rust panic is [None] (or [Panic] for [outcome]).
    - Persistence writes and realtime broadcasts are recorded in an effect
      log, returned next to the new state. *)

From Stdlib Require Import ZArith Lia Ascii.
From Stdlib Require String Strings.Byte.
From stdpp Require Import base list gmap strings.
Import ListNotations.
#[local] Set Warnings "-register-all".

(* ------------------------------------------------------------------ *)
(** * Bytes and fixed-width integers *)

Abbreviation byte := Byte.byte.

Definition b2z (b : byte) : Z := Z.of_N (Byte.to_N b).

(** [x as u8] : the low 8 bits. *)
Definition z2b (z : Z) : byte :=
  match Byte.of_N (Z.to_N (z mod 256)) with Some b => b | None => Byte.x00 end.

(** [a ^ b] on [u8], bit by bit. *)
Definition bxor (a b : byte) : byte :=
  let '(a0, (a1, (a2, (a3, (a4, (a5, (a6, a7))))))) := Byte.to_bits a in
  let '(b0, (b1, (b2, (b3, (b4, (b5, (b6, b7))))))) := Byte.to_bits b in
  Byte.of_bits (xorb a0 b0, (xorb a1 b1, (xorb a2 b2, (xorb a3 b3,
               (xorb a4 b4, (xorb a5 b5, (xorb a6 b6, xorb a7 b7))))))).

(** [n.to_le_bytes()] for a [w]-byte integer (two's complement for
    negative [n]: floor division and [mod] keep the low bits). *)
Fixpoint to_le_bytes (w : nat) (n : Z) : list byte :=
  match w with
  | O => []
  | S w' => z2b n :: to_le_bytes w' (n / 256)
  end.

(** [uN::from_le_bytes]. *)
Fixpoint from_le_bytes (bs : list byte) : Z :=
  match bs with
  | [] => 0
  | b :: bs' => b2z b + 256 * from_le_bytes bs'
  end%Z.

(** [n.to_be_bytes()]. *)
Definition to_be_bytes (w : nat) (n : Z) : list byte := rev (to_le_bytes w n).

(** [x as u32]. *)
Definition as_u32 (z : Z) : Z := (z mod 2 ^ 32)%Z.

(** [i64::from_le_bytes]: the unsigned value read back as two's complement. *)
Definition to_i64 (u : Z) : Z := if (u <? 2 ^ 63)%Z then u else (u - 2 ^ 64)%Z.

(** [s.len()] of a Rust string: its byte length. *)
Definition str_len (s : string) : nat := length (String.list_byte_of_string s).

(* ------------------------------------------------------------------ *)
(** * UTF-8 and [String::from_utf8_lossy] *)

Definition in_range (lo hi : Z) (b : option byte) : bool :=
  match b with
  | Some b => (lo <=? b2z b)%Z && (b2z b <=? hi)%Z
  | None => false
  end.

(** One step of the standard library's UTF-8 chunk scanner: at a lead byte
    [b0] followed by [rest], [(true, n)] is a valid [n]-byte character and
    [(false, n)] the maximal invalid prefix of [n] bytes that
    [from_utf8_lossy] replaces by one U+FFFD. *)
Definition utf8_next (b0 : byte) (rest : list byte) : bool * nat :=
  let x := b2z b0 in
  let c1 := nth_error rest 0 in
  let c2 := nth_error rest 1 in
  let c3 := nth_error rest 2 in
  if (x <? 128)%Z then (true, 1%nat)
  else if (194 <=? x)%Z && (x <=? 223)%Z then
    if in_range 128 191 c1 then (true, 2%nat) else (false, 1%nat)
  else if (224 <=? x)%Z && (x <=? 239)%Z then
    let '(lo, hi) := if (x =? 224)%Z then (160, 191)%Z
                     else if (x =? 237)%Z then (128, 159)%Z else (128, 191)%Z in
    if in_range lo hi c1 then
      if in_range 128 191 c2 then (true, 3%nat) else (false, 2%nat)
    else (false, 1%nat)
  else if (240 <=? x)%Z && (x <=? 244)%Z then
    let '(lo, hi) := if (x =? 240)%Z then (144, 191)%Z
                     else if (x =? 244)%Z then (128, 143)%Z else (128, 191)%Z in
    if in_range lo hi c1 then
      if in_range 128 191 c2 then
        if in_range 128 191 c3 then (true, 4%nat) else (false, 3%nat)
      else (false, 2%nat)
    else (false, 1%nat)
  else (false, 1%nat).

(** The replacement character U+FFFD in UTF-8. *)
Definition replacement_char : list byte := [Byte.xef; Byte.xbf; Byte.xbd].

(** The scanner is run with fuel [length bs]: every step consumes at least
    one byte. *)
Fixpoint lossy_go (fuel : nat) (bs : list byte) : list byte :=
  match fuel, bs with
  | O, _ => []
  | _, [] => []
  | S f, b :: rest =>
      let '(ok, n) := utf8_next b rest in
      (if ok then firstn n bs else replacement_char) ++ lossy_go f (skipn n bs)
  end.

Definition from_utf8_lossy (bs : list byte) : string :=
  String.string_of_list_byte (lossy_go (length bs) bs).

Fixpoint valid_go (fuel : nat) (bs : list byte) : bool :=
  match fuel, bs with
  | O, [] => true
  | O, _ => false
  | _, [] => true
  | S f, b :: rest =>
      let '(ok, n) := utf8_next b rest in ok && valid_go f (skipn n bs)
  end.

(** The invariant of Rust's [String]: its bytes are valid UTF-8. *)
Definition utf8_valid (s : string) : bool :=
  let bs := String.list_byte_of_string s in valid_go (length bs) bs.

(* ------------------------------------------------------------------ *)
(** * Values and documents ([db.rs], [enum Value]) *)

(** [Value::String] is [VString] here: [String] is the constructor of
    Coq's [string]. A [Float] is held as its IEEE-754 bit pattern
    ([f64::to_bits]), which is all the codec touches. *)
Inductive Value : Type :=
  | Null
  | Bool (b : bool)
  | Int (i : Z)
  | Float (bits : Z)
  | VString (s : string)
  | Array (arr : list Value)
  | Object (obj : list (string * Value)).

Abbreviation Document := (list (string * Value)).

(** [HashMap::get]. *)
Fixpoint doc_get (k : string) (d : Document) : option Value :=
  match d with
  | [] => None
  | (k', v) :: d' => if String.eqb k k' then Some v else doc_get k d'
  end.

(** [HashMap::insert]: replaces the value of an existing key, otherwise adds
    the pair. *)
Fixpoint doc_insert (k : string) (v : Value) (d : Document) : Document :=
  match d with
  | [] => [(k, v)]
  | (k', v') :: d' =>
      if String.eqb k k' then (k, v) :: d' else (k', v') :: doc_insert k v d'
  end.

(** [doc.contains_key(k)]. *)
Definition doc_contains (k : string) (d : Document) : bool :=
  match doc_get k d with Some _ => true | None => false end.

(* ------------------------------------------------------------------ *)
(** * Binary codec ([write_string], [write_doc], [write_value], ...) *)

(** [data.extend(&(n as u32).to_le_bytes())]. *)
Definition u32_bytes (n : nat) : list byte := to_le_bytes 4 (as_u32 (Z.of_nat n)).

Definition write_string (s : string) : list byte :=
  u32_bytes (str_len s) ++ String.list_byte_of_string s.

Fixpoint write_value (v : Value) : list byte :=
  match v with
  | Null => [Byte.x00]
  | Bool b => [Byte.x01; if b then Byte.x01 else Byte.x00]
  | Int i => Byte.x02 :: to_le_bytes 8 i
  | Float f => Byte.x03 :: to_le_bytes 8 f
  | VString s => Byte.x04 :: write_string s
  | Array arr =>
      Byte.x05 :: u32_bytes (length arr) ++
      (fix items (l : list Value) : list byte :=
         match l with [] => [] | x :: l' => write_value x ++ items l' end) arr
  | Object obj =>
      Byte.x06 :: u32_bytes (length obj) ++
      (fix pairs (l : Document) : list byte :=
         match l with
         | [] => []
         | (k, x) :: l' => write_string k ++ write_value x ++ pairs l'
         end) obj
  end.

Fixpoint write_items (l : list Value) : list byte :=
  match l with [] => [] | x :: l' => write_value x ++ write_items l' end.

Fixpoint write_pairs (l : Document) : list byte :=
  match l with
  | [] => []
  | (k, x) :: l' => write_string k ++ write_value x ++ write_pairs l'
  end.

Definition write_doc (doc : Document) : list byte :=
  u32_bytes (length doc) ++ write_pairs doc.

(** Readers work on the whole buffer [data] and a position [pos], as the
    source does; a slice or index out of range panics ([None]). *)
Definition read_u32 (data : list byte) (pos : nat) : option (Z * nat) :=
  if (pos + 4 <=? length data)%nat
  then Some (from_le_bytes (firstn 4 (skipn pos data)), (pos + 4)%nat)
  else None.

Definition read_string (data : list byte) (pos : nat) : option (string * nat) :=
  match read_u32 data pos with
  | None => None
  | Some (len, pos) =>
      let len := Z.to_nat len in
      if (pos + len <=? length data)%nat
      then Some (from_utf8_lossy (firstn len (skipn pos data)), (pos + len)%nat)
      else None
  end.

(** [for _ in 0..count { ... }] over a reader threading the position. *)
Fixpoint read_many {A} (rd : nat -> option (A * nat)) (n : nat) (pos : nat)
    : option (list A * nat) :=
  match n with
  | O => Some ([], pos)
  | S n' =>
      match rd pos with
      | None => None
      | Some (a, pos) =>
          match read_many rd n' pos with
          | None => None
          | Some (l, pos) => Some (a :: l, pos)
          end
      end
  end.

(** One [(key, value)] pair of [read_doc]. *)
Definition read_pair (rd : nat -> option (Value * nat)) (data : list byte)
    (p : nat) : option ((string * Value) * nat) :=
  match read_string data p with
  | None => None
  | Some (k, p) =>
      match rd p with
      | None => None
      | Some (v, p) => Some ((k, v), p)
      end
  end.

(** The body of [read_doc], given the reader of the values: the pairs are
    inserted one after the other into a fresh map. *)
Definition read_doc_with (rd : nat -> option (Value * nat)) (data : list byte)
    (pos : nat) : option (Document * nat) :=
  match read_u32 data pos with
  | None => None
  | Some (count, pos) =>
      match read_many (read_pair rd data) (Z.to_nat count) pos with
      | None => None
      | Some (kvs, pos) =>
          Some (fold_left (fun d '(k, v) => doc_insert k v d) kvs [], pos)
      end
  end.

(** [read_value]. The recursion of the source is bounded by the buffer:
    each nested value consumes its tag byte, so the fuel
    [S (length data)] given by [read_doc] below never runs out before the
    buffer does. *)
Fixpoint read_value (fuel : nat) (data : list byte) (pos : nat)
    : option (Value * nat) :=
  match fuel with
  | O => None
  | S f =>
      match nth_error data pos with
      | None => None
      | Some tag =>
          let pos := S pos in
          match b2z tag with
          | 0%Z => Some (Null, pos)
          | 1%Z =>
              match nth_error data pos with
              | None => None
              | Some b => Some (Bool (negb (Byte.eqb b Byte.x00)), S pos)
              end
          | 2%Z =>
              if (pos + 8 <=? length data)%nat
              then Some (Int (to_i64 (from_le_bytes (firstn 8 (skipn pos data)))),
                         (pos + 8)%nat)
              else None
          | 3%Z =>
              if (pos + 8 <=? length data)%nat
              then Some (Float (from_le_bytes (firstn 8 (skipn pos data))),
                         (pos + 8)%nat)
              else None
          | 4%Z =>
              match read_string data pos with
              | None => None
              | Some (s, pos) => Some (VString s, pos)
              end
          | 5%Z =>
              match read_u32 data pos with
              | None => None
              | Some (count, pos) =>
                  match read_many (read_value f data) (Z.to_nat count) pos with
                  | None => None
                  | Some (arr, pos) => Some (Array arr, pos)
                  end
              end
          | 6%Z =>
              match read_doc_with (read_value f data) data pos with
              | None => None
              | Some (obj, pos) => Some (Object obj, pos)
              end
          | _ => Some (Null, pos)
          end
      end
  end.

Definition read_doc (data : list byte) (pos : nat) : option (Document * nat) :=
  read_doc_with (read_value (S (length data)) data) data pos.

(** Rust's type invariants on a value: strings are UTF-8, an [Int] is an
    [i64], a [Float] is a 64-bit pattern, and the keys of an object are
    unique. *)
Fixpoint value_wf (v : Value) : bool :=
  match v with
  | Int i => (- 2 ^ 63 <=? i)%Z && (i <? 2 ^ 63)%Z
  | Float f => (0 <=? f)%Z && (f <? 2 ^ 64)%Z
  | VString s => utf8_valid s
  | Array arr =>
      (fix items (l : list Value) : bool :=
         match l with [] => true | x :: l' => value_wf x && items l' end) arr
  | Object obj =>
      bool_decide (NoDup (map fst obj)) &&
      (fix pairs (l : Document) : bool :=
         match l with
         | [] => true
         | (k, x) :: l' => utf8_valid k && value_wf x && pairs l'
         end) obj
  | _ => true
  end.

(** Every length the codec writes as a [u32] is below [2^32]. *)
Fixpoint value_fits_u32 (v : Value) : bool :=
  match v with
  | VString s => (Z.of_nat (str_len s) <? 2 ^ 32)%Z
  | Array arr =>
      (Z.of_nat (length arr) <? 2 ^ 32)%Z &&
      (fix items (l : list Value) : bool :=
         match l with [] => true | x :: l' => value_fits_u32 x && items l' end) arr
  | Object obj =>
      (Z.of_nat (length obj) <? 2 ^ 32)%Z &&
      (fix pairs (l : Document) : bool :=
         match l with
         | [] => true
         | (k, x) :: l' =>
             (Z.of_nat (str_len k) <? 2 ^ 32)%Z && value_fits_u32 x && pairs l'
         end) obj
  | _ => true
  end.

Definition doc_wf (d : Document) : bool := value_wf (Object d).
Definition doc_fits_u32 (d : Document) : bool := value_fits_u32 (Object d).

(** Well-formedness of the elements of arrays and of the pairs of
    objects, as separate functions. *)
Fixpoint items_wf (l : list Value) : bool :=
  match l with [] => true | x :: l' => value_wf x && items_wf l' end.
Fixpoint pairs_wf (l : Document) : bool :=
  match l with
  | [] => true
  | (k, x) :: l' => utf8_valid k && value_wf x && pairs_wf l'
  end.
Fixpoint items_fit (l : list Value) : bool :=
  match l with [] => true | x :: l' => value_fits_u32 x && items_fit l' end.
Fixpoint pairs_fit (l : Document) : bool :=
  match l with
  | [] => true
  | (k, x) :: l' => (Z.of_nat (str_len k) <? 2 ^ 32)%Z && value_fits_u32 x && pairs_fit l'
  end.

(** What the codec guarantees of one value: written at [pos] (followed by
    anything), it is read back whole, with the position after it. *)
Definition reads_back (v : Value) : Prop :=
  value_wf v = true -> value_fits_u32 v = true ->
  forall (f : nat) (data : list byte) (pos : nat) (rest : list byte),
  (length (write_value v) <= f)%nat ->
  skipn pos data = write_value v ++ rest ->
  read_value f data pos = Some (v, (pos + length (write_value v))%nat).

(** A 4 GiB string of ['a']s. *)
Definition big_string : string :=
  String.string_of_list_byte (repeat Byte.x61 (Z.to_nat (2 ^ 32))).

(* ------------------------------------------------------------------ *)
(** * Cryptography ([crypto.rs]) *)

Module Crypto.

(** [u32] arithmetic: [wrapping_add], [rotate_right], [rotate_left], [!]. *)
Definition mask32 : Z := (2 ^ 32 - 1)%Z.
Definition add32 (a b : Z) : Z := ((a + b) mod 2 ^ 32)%Z.
Definition rotr32 (x n : Z) : Z :=
  Z.lor (Z.shiftr x n) (Z.land (Z.shiftl x (32 - n)) mask32).
Definition rotl32 (x n : Z) : Z :=
  Z.lor (Z.land (Z.shiftl x n) mask32) (Z.shiftr x (32 - n)).
Definition not32 (x : Z) : Z := Z.lxor x mask32.

(** [slice.chunks(n)] (for [n > 0]); the fuel [length l] is never short. *)
Fixpoint chunks_go {A} (n fuel : nat) (l : list A) : list (list A) :=
  match fuel, l with
  | O, _ => []
  | _, [] => []
  | S f, _ :: _ => firstn n l :: chunks_go n f (skipn n l)
  end.
Definition chunks {A} (n : nat) (l : list A) : list (list A) := chunks_go n (length l) l.

(** The round constants [K] (written in decimal). *)
Definition K : list Z := [
  1116352408; 1899447441; 3049323471; 3921009573; 961987163; 1508970993;
  2453635748; 2870763221; 3624381080; 310598401; 607225278; 1426881987;
  1925078388; 2162078206; 2614888103; 3248222580; 3835390401; 4022224774;
  264347078; 604807628; 770255983; 1249150122; 1555081692; 1996064986;
  2554220882; 2821834349; 2952996808; 3210313671; 3336571891; 3584528711;
  113926993; 338241895; 666307205; 773529912; 1294757372; 1396182291;
  1695183700; 1986661051; 2177026350; 2456956037; 2730485921; 2820302411;
  3259730800; 3345764771; 3516065817; 3600352804; 4094571909; 275423344;
  430227734; 506948616; 659060556; 883997877; 958139571; 1322822218;
  1537002063; 1747873779; 1955562222; 2024104815; 2227730452; 2361852424;
  2428436474; 2756734187; 3204031479; 3329325298]%Z.

(** The initial hash value [H] (written in decimal). *)
Definition H_init : list Z := [
  1779033703; 3144134277; 1013904242; 2773480762;
  1359893119; 2600822924; 528734635; 1541459225]%Z.

(** [u32::from_be_bytes]. *)
Definition from_be_bytes (bs : list byte) : Z := from_le_bytes (rev bs).

(** [for i in 16..64 { w[i] = ... }], one word appended per step. *)
Fixpoint schedule (n : nat) (w : list Z) : list Z :=
  match n with
  | O => w
  | S n' =>
      let i := length w in
      let w15 := w !!! (i - 15)%nat in
      let w2 := w !!! (i - 2)%nat in
      let s0 := Z.lxor (Z.lxor (rotr32 w15 7) (rotr32 w15 18)) (Z.shiftr w15 3) in
      let s1 := Z.lxor (Z.lxor (rotr32 w2 17) (rotr32 w2 19)) (Z.shiftr w2 10) in
      schedule n' (w ++ [add32 (add32 (add32 (w !!! (i - 16)%nat) s0) (w !!! (i - 7)%nat)) s1])
  end.

(** One of the 64 rounds, on [[a; b; c; d; e; f; g; hh]]. *)
Definition round (st : list Z) (kw : Z * Z) : list Z :=
  match st with
  | [a; b; c; d; e; f; g; hh] =>
      let s1 := Z.lxor (Z.lxor (rotr32 e 6) (rotr32 e 11)) (rotr32 e 25) in
      let ch := Z.lxor (Z.land e f) (Z.land (not32 e) g) in
      let t1 := add32 (add32 (add32 (add32 hh s1) ch) (fst kw)) (snd kw) in
      let s0 := Z.lxor (Z.lxor (rotr32 a 2) (rotr32 a 13)) (rotr32 a 22) in
      let maj := Z.lxor (Z.lxor (Z.land a b) (Z.land a c)) (Z.land b c) in
      let t2 := add32 s0 maj in
      [add32 t1 t2; a; b; c; add32 d t1; e; f; g]
  | _ => st
  end.

Definition compress (h : list Z) (chunk : list byte) : list Z :=
  let w := schedule 48 (map from_be_bytes (chunks 4 chunk)) in
  let st := fold_left round (combine K w) h in
  zip_with add32 h st.

(** Padding: [0x80], zeros up to 56 mod 64, then the bit length as a
    big-endian [u64]. *)
Definition pad (data : list byte) : list byte :=
  let ml := ((Z.of_nat (length data) * 8) mod 2 ^ 64)%Z in
  data ++ [Byte.x80] ++ repeat Byte.x00 ((119 - length data mod 64) mod 64)
       ++ to_be_bytes 8 ml.

Definition sha256 (data : list byte) : list byte :=
  let h := fold_left compress (chunks 64 (pad data)) H_init in
  concat (map (to_be_bytes 4) h).

(** [hmac_sha256]: the key is hashed when longer than a block, then
    zero-padded to 64 bytes. *)
Definition hmac_sha256 (key data : list byte) : list byte :=
  let k := if (64 <? length key)%nat
           then sha256 key ++ repeat Byte.x00 32
           else key ++ repeat Byte.x00 (64 - length key) in
  let ipad := map (bxor Byte.x36) k in
  let opad := map (bxor Byte.x5c) k in
  sha256 (opad ++ sha256 (ipad ++ data)).

(** [pbkdf2]: [for _ in 1..iterations] runs [iterations - 1] times. *)
Definition pbkdf2 (password salt : list byte) (iterations : Z) : list byte :=
  let u := hmac_sha256 password (salt ++ to_be_bytes 4 1) in
  snd (Nat.iter (Z.to_nat (iterations - 1))
         (fun '(u, result) =>
            let u := hmac_sha256 password u in (u, zip_with bxor result u))
         (u, u)).

(** ChaCha20 ([quarter_round], [chacha20_block], [chacha20]). *)
Definition quarter_round (st : list Z) (a b c d : nat) : list Z :=
  let st := <[a := add32 (st !!! a) (st !!! b)]> st in
  let st := <[d := Z.lxor (st !!! d) (st !!! a)]> st in
  let st := <[d := rotl32 (st !!! d) 16]> st in
  let st := <[c := add32 (st !!! c) (st !!! d)]> st in
  let st := <[b := Z.lxor (st !!! b) (st !!! c)]> st in
  let st := <[b := rotl32 (st !!! b) 12]> st in
  let st := <[a := add32 (st !!! a) (st !!! b)]> st in
  let st := <[d := Z.lxor (st !!! d) (st !!! a)]> st in
  let st := <[d := rotl32 (st !!! d) 8]> st in
  let st := <[c := add32 (st !!! c) (st !!! d)]> st in
  let st := <[b := Z.lxor (st !!! b) (st !!! c)]> st in
  <[b := rotl32 (st !!! b) 7]> st.

Definition double_round (st : list Z) : list Z :=
  let st := quarter_round st 0 4 8 12 in
  let st := quarter_round st 1 5 9 13 in
  let st := quarter_round st 2 6 10 14 in
  let st := quarter_round st 3 7 11 15 in
  let st := quarter_round st 0 5 10 15 in
  let st := quarter_round st 1 6 11 12 in
  let st := quarter_round st 2 7 8 13 in
  quarter_round st 3 4 9 14.

(** [u32::from_le_bytes([b[i], b[i+1], b[i+2], b[i+3]])]. *)
Definition le_word (bs : list byte) (i : nat) : Z := from_le_bytes (firstn 4 (skipn i bs)).

Definition chacha20_block (key : list byte) (counter : Z) (nonce : list byte) : list byte :=
  let state := [0x61707865; 0x3320646e; 0x79622d32; 0x6b206574]%Z
               ++ map (fun i => le_word key (4 * i)) (seq 0 8)
               ++ [counter]
               ++ map (fun i => le_word nonce (4 * i)) (seq 0 3) in
  let st := Nat.iter 10 double_round state in
  concat (map (fun i => to_le_bytes 4 (add32 (st !!! i) (state !!! i))) (seq 0 16)).

(** [for (i, chunk) in data.chunks(64).enumerate()]: block [i as u32] of the
    keystream is XORed onto chunk [i]. *)
Fixpoint chacha20_go (key nonce : list byte) (fuel : nat) (i : Z) (data : list byte)
    : list byte :=
  match fuel, data with
  | O, _ => []
  | _, [] => []
  | S f, _ :: _ =>
      zip_with bxor (firstn 64 data) (chacha20_block key (as_u32 i) nonce)
      ++ chacha20_go key nonce f (i + 1) (skipn 64 data)
  end.

Definition chacha20 (key nonce data : list byte) : list byte :=
  chacha20_go key nonce (length data) 0 data.

(** [format!("{:02x}", b)]. *)
Definition hex_digit (d : Z) : byte :=
  if (d <? 10)%Z then z2b (48 + d) else z2b (87 + d).
Definition hex_encode (data : list byte) : string :=
  String.string_of_list_byte
    (concat (map (fun b => [hex_digit (b2z b / 16); hex_digit (b2z b mod 16)]) data)).

(** A byte of ['0'-'9'] or ['a'-'f']. *)
Definition is_lower_hex (b : byte) : bool :=
  ((48 <=? b2z b)%Z && (b2z b <=? 57)%Z) || ((97 <=? b2z b)%Z && (b2z b <=? 102)%Z).

(** [random_bytes(len)]: the buffer starts zeroed and is filled from the
    random source [src] (fewer bytes when the source runs short). *)
Definition random_bytes (len : nat) (src : list byte) : list byte :=
  firstn len src ++ repeat Byte.x00 (len - length src).
Definition random_hex (len : nat) (src : list byte) : string :=
  hex_encode (random_bytes len src).

(** Outcome of code that may panic. *)
Inductive outcome (A : Type) : Type :=
  | Ok (a : A)
  | Panic.
Arguments Ok {A} a.
Arguments Panic {A}.

(** The value of an ASCII hex digit (either case). *)
Definition hex_val (b : byte) : option Z :=
  let x := b2z b in
  if (48 <=? x)%Z && (x <=? 57)%Z then Some (x - 48)%Z
  else if (97 <=? x)%Z && (x <=? 102)%Z then Some (x - 87)%Z
  else if (65 <=? x)%Z && (x <=? 70)%Z then Some (x - 55)%Z
  else None.

(** [u8::from_str_radix(&s[i..i+2], 16).ok()] on a two-byte slice: an
    unsigned parse accepts a leading ['+']. *)
Definition from_str_radix16 (a b : byte) : option byte :=
  if Byte.eqb a Byte.x2b then
    match hex_val b with Some v => Some (z2b v) | None => None end
  else
    match hex_val a, hex_val b with
    | Some h, Some l => Some (z2b (16 * h + l))
    | _, _ => None
    end.

(** A UTF-8 continuation byte: an index before one is not a char
    boundary. *)
Definition is_cont (b : byte) : bool := (128 <=? b2z b)%Z && (b2z b <=? 191)%Z.

(** [hex_decode]: [(0..s.len()).step_by(2).map(...).collect::<Option<_>>()]
    on the bytes of [s] from [i] on. Slicing [s[i..i+2]] panics past the end
    or off a char boundary; [collect] stops at the first [None]. *)
Fixpoint hex_decode_go (rest : list byte) : outcome (option (list byte)) :=
  match rest with
  | [] => Ok (Some [])
  | [_] => Panic
  | a :: b :: rest' =>
      if match rest' with c :: _ => is_cont c | [] => false end then Panic
      else match from_str_radix16 a b with
           | None => Ok None
           | Some x =>
               match hex_decode_go rest' with
               | Panic => Panic
               | Ok None => Ok None
               | Ok (Some l) => Ok (Some (x :: l))
               end
           end
  end.

Definition hex_decode (s : list byte) : outcome (option (list byte)) := hex_decode_go s.

(** [stored.split(':')]. *)
Fixpoint split_colon (bs : list byte) : list (list byte) :=
  match bs with
  | [] => [[]]
  | b :: bs' =>
      if Byte.eqb b Byte.x3a then [] :: split_colon bs'
      else match split_colon bs' with
           | p :: ps => (b :: p) :: ps
           | [] => [[b]]
           end
  end.

Definition verify_password (password stored : string) : outcome bool :=
  match split_colon (String.list_byte_of_string stored) with
  | [p0; p1] =>
      match hex_decode p0 with
      | Panic => Panic
      | Ok None => Ok false
      | Ok (Some salt) =>
          match hex_decode p1 with
          | Panic => Panic
          | Ok None => Ok false
          | Ok (Some stored_hash) =>
              let hash := pbkdf2 (String.list_byte_of_string password) salt 100000 in
              Ok (if List.list_eq_dec Byte.byte_eq_dec hash stored_hash then true else false)
          end
      end
  | _ => Ok false
  end.

(** [hash_password]; [rnd] is what [/dev/urandom] yields for the salt. *)
Definition hash_password (password : string) (rnd : list byte) : string :=
  let salt := random_bytes 16 rnd in
  let hash := pbkdf2 (String.list_byte_of_string password) salt 100000 in
  String.append (hex_encode salt) (String.append ":" (hex_encode hash)).

End Crypto.

(* ------------------------------------------------------------------ *)
(** * The database engine ([db.rs]) and the collection endpoint
      ([api/collections.rs]) *)

Module Db.
Import Crypto.

Record Schema : Type := mkSchema { fields : list (string * string) }.

Abbreviation Collection := (gmap string Document).

(** [Database]; the two [RwLock]ed maps and the derived key. *)
Record Database : Type := mkDatabase {
  collections : gmap string Collection;
  schemas : gmap string Schema;
  encryption_key : list byte }.

Definition set_collections (cols : gmap string Collection) (db : Database) : Database :=
  mkDatabase cols (schemas db) (encryption_key db).
Definition set_schemas (sch : gmap string Schema) (db : Database) : Database :=
  mkDatabase (collections db) sch (encryption_key db).

(** Observable effects: [sync] writes the encrypted image of the two maps
    (recorded here as the maps written), [broadcast_event] sends a change
    event. *)
Inductive Effect : Type :=
  | Sync (cols : gmap string Collection) (sch : gmap string Schema)
  | Broadcast (kind collection : string) (doc : option Document) (id : option string).

Definition sync (db : Database) : Effect := Sync (collections db) (schemas db).

(** [name.starts_with('_')]. *)
Definition starts_with_underscore (name : string) : bool :=
  match name with
  | String.String c _ => Ascii.eqb c "_"%char
  | String.EmptyString => false
  end.

Definition create_collection_internal (name : string) (flds : list (string * string))
    (db : Database) : Database :=
  mkDatabase (<[name := ∅]> (collections db)) (<[name := mkSchema flds]> (schemas db))
             (encryption_key db).

Definition users_fields : list (string * string) :=
  [("email", "string"); ("password", "string"); ("role", "string"); ("created", "int")].
Definition sessions_fields : list (string * string) :=
  [("user_id", "string"); ("token", "string"); ("expires", "int")].
Definition settings_fields : list (string * string) :=
  [("page_title", "string"); ("meta_description", "string"); ("meta_keywords", "string");
   ("og_title", "string"); ("og_description", "string"); ("og_image", "string");
   ("twitter_card", "string"); ("canonical_url", "string"); ("nginx_hostname", "string");
   ("nginx_internal_ip", "string"); ("dev_network_name", "string");
   ("dev_network_subnet", "string"); ("dev_ip_base", "string");
   ("prod_network_name", "string"); ("prod_network_subnet", "string");
   ("prod_ip_base", "string"); ("app_port", "int"); ("dev_port_start", "int");
   ("dev_port_end", "int"); ("prod_port_start", "int"); ("prod_port_end", "int")].
Definition ports_fields : list (string * string) :=
  [("project", "string"); ("dev_port", "int"); ("prod_port", "int"); ("created", "int")].

(** [Database::new]. *)
Definition new (key : list byte) : Database :=
  let db := mkDatabase ∅ ∅ (sha256 key) in
  let db := create_collection_internal "_users" users_fields db in
  let db := create_collection_internal "_sessions" sessions_fields db in
  let db := create_collection_internal "_settings" settings_fields db in
  create_collection_internal "_ports" ports_fields db.

(** [Database::create_collection]. *)
Definition create_collection (name : string) (flds : list (string * string))
    (db : Database) : Database * list Effect :=
  let db := create_collection_internal name flds db in
  (db, [sync db; Broadcast "collection.created" name None None]).

Definition find_one (collection id : string) (db : Database) : option Document :=
  collections db !! collection ≫= fun col => col !! id.

(** [Database::insert]: [rnd] is what [/dev/urandom] yields, [t1] and [t2]
    the two readings of [now()]. *)
Definition insert (collection : string) (doc : Document) (rnd : list byte) (t1 t2 : Z)
    (db : Database) : option string * Database * list Effect :=
  match collections db !! collection with
  | None => (None, db, [])
  | Some col =>
      let id := random_hex 12 rnd in
      let doc := doc_insert "id" (VString id) doc in
      let doc := doc_insert "created" (Int t1) doc in
      let doc := doc_insert "updated" (Int t2) doc in
      let db := set_collections (<[collection := <[id := doc]> col]> (collections db)) db in
      (Some id, db,
       sync db :: match find_one collection id db with
                  | Some d => [Broadcast "doc.created" collection (Some d) (Some id)]
                  | None => []
                  end)
  end.

(** The loop of [update] over the payload. *)
Definition merge_updates (updates doc : Document) : Document :=
  fold_left (fun d '(k, v) =>
               if negb (String.eqb k "id") && negb (String.eqb k "created")
               then doc_insert k v d else d) updates doc.

(** [Database::update]; [t] is the reading of [now()]. *)
Definition update (collection id : string) (updates : Document) (t : Z) (db : Database)
    : bool * Database * list Effect :=
  match collections db !! collection with
  | Some col =>
      match col !! id with
      | Some doc =>
          let doc := doc_insert "updated" (Int t) (merge_updates updates doc) in
          let db := set_collections (<[collection := <[id := doc]> col]> (collections db)) db in
          (true, db,
           sync db :: match find_one collection id db with
                      | Some d => [Broadcast "doc.updated" collection (Some d) (Some id)]
                      | None => []
                      end)
      | None => (false, db, [])
      end
  | None => (false, db, [])
  end.

(** [Database::delete]. *)
Definition delete (collection id : string) (db : Database) : bool * Database * list Effect :=
  match collections db !! collection with
  | Some col =>
      match col !! id with
      | Some _ =>
          let db := set_collections (<[collection := delete id col]> (collections db)) db in
          (true, db, [sync db; Broadcast "doc.deleted" collection None (Some id)])
      | None => (false, db, [])
      end
  | None => (false, db, [])
  end.

(** [Database::delete_collection]. *)
Definition delete_collection (name : string) (db : Database) : bool * Database * list Effect :=
  if starts_with_underscore name then (false, db, [])
  else
    let db := mkDatabase (base.delete name (collections db)) (base.delete name (schemas db))
                         (encryption_key db) in
    (true, db, [sync db; Broadcast "collection.deleted" name None None]).

(** Parsing part of [deserialize]: the schema table, then the collection
    table read [while pos < data.len()]. [None] is a panic (slice or index
    out of range). *)
Definition read_field (data : list byte) (p : nat) : option ((string * string) * nat) :=
  match read_string data p with
  | None => None
  | Some (fname, p) =>
      match read_string data p with
      | None => None
      | Some (ftype, p) => Some ((fname, ftype), p)
      end
  end.

Definition read_schema (data : list byte) (p : nat) : option ((string * Schema) * nat) :=
  match read_string data p with
  | None => None
  | Some (name, p) =>
      match read_u32 data p with
      | None => None
      | Some (field_count, p) =>
          match read_many (read_field data) (Z.to_nat field_count) p with
          | None => None
          | Some (flds, p) => Some ((name, mkSchema flds), p)
          end
      end
  end.

Definition read_entry (data : list byte) (p : nat) : option ((string * Document) * nat) :=
  match read_string data p with
  | None => None
  | Some (id, p) =>
      match read_doc data p with
      | None => None
      | Some (doc, p) => Some ((id, doc), p)
      end
  end.

(** Each round of the [while] loop reads at least the 4 length bytes of
    the name, so [length data] rounds of fuel are never exhausted. *)
Fixpoint read_collections (fuel : nat) (data : list byte) (pos : nat)
    : option (list (string * list (string * Document))) :=
  match fuel with
  | O => Some []
  | S f =>
      if (pos <? length data)%nat then
        match read_string data pos with
        | None => None
        | Some (name, p) =>
            match read_u32 data p with
            | None => None
            | Some (doc_count, p) =>
                match read_many (read_entry data) (Z.to_nat doc_count) p with
                | None => None
                | Some (docs, p) =>
                    match read_collections f data p with
                    | None => None
                    | Some rest => Some ((name, docs) :: rest)
                    end
                end
            end
        end
      else Some []
  end.

Definition parse_image (data : list byte)
    : option (list (string * Schema) * list (string * list (string * Document))) :=
  match read_u32 data 0 with
  | None => None
  | Some (schema_count, pos) =>
      match read_many (read_schema data) (Z.to_nat schema_count) pos with
      | None => None
      | Some (ss, pos) =>
          match read_collections (length data) data pos with
          | None => None
          | Some cs => Some (ss, cs)
          end
      end
  end.

(** Effect of the schema table: [schemas.insert(name, ..)] and
    [cols.insert(name, HashMap::new())]. *)
Definition apply_schema (db : Database) (e : string * Schema) : Database :=
  mkDatabase (<[e.1 := ∅]> (collections db)) (<[e.1 := e.2]> (schemas db))
             (encryption_key db).

(** Effect of the collection table: [cols.entry(name).or_insert_with(..)],
    then [col.insert(id, doc)] for each document. *)
Definition apply_collection (db : Database) (e : string * list (string * Document))
    : Database :=
  let col := default ∅ (collections db !! e.1) in
  let col := fold_left (fun c '(id, doc) => <[id := doc]> c) e.2 col in
  set_collections (<[e.1 := col]> (collections db)) db.

(** [Database::deserialize]; [None] is a panic. *)
Definition deserialize (data : list byte) (db : Database) : option Database :=
  match parse_image data with
  | None => None
  | Some (ss, cs) => Some (fold_left apply_collection cs (fold_left apply_schema ss db))
  end.

(** [ensure_internal_collections]. *)
Definition ensure_internal_collections (db : Database) : Database :=
  match schemas db !! "_ports" with
  | Some _ => db
  | None =>
      mkDatabase (<["_ports" := ∅]> (collections db))
                 (<["_ports" := mkSchema ports_fields]> (schemas db)) (encryption_key db)
  end.

Definition settings_defaults : Document :=
  [("page_title", VString "Rust Pure Web");
   ("meta_description", VString "Zero-dependency Rust web framework.");
   ("meta_keywords", VString "rust, web, zero-deps");
   ("og_title", VString "Rust Pure Web");
   ("og_description", VString "Fast, zero-dependency web framework in Rust.");
   ("og_image", VString "");
   ("twitter_card", VString "summary_large_image");
   ("canonical_url", VString "");
   ("nginx_hostname", VString "proxy.olibuijr.com");
   ("nginx_internal_ip", VString "192.168.8.4");
   ("dev_network_name", VString "dev");
   ("dev_network_subnet", VString "10.35.0.0/24");
   ("dev_ip_base", VString "10.35.0.");
   ("prod_network_name", VString "prod");
   ("prod_network_subnet", VString "10.36.0.0/24");
   ("prod_ip_base", VString "10.36.0.");
   ("app_port", Int 3460); ("dev_port_start", Int 3501); ("dev_port_end", Int 3599);
   ("prod_port_start", Int 3601); ("prod_port_end", Int 3699)].

Definition set_default (doc : Document) (key : string) (value : Value) : Document :=
  if doc_contains key doc then doc else doc_insert key value doc.

(** [ensure_settings_defaults]; [rnd] feeds [random_hex(12)]. *)
Definition ensure_settings_defaults (rnd : list byte) (db : Database) : Database :=
  let col := default ∅ (collections db !! "_settings") in
  let col :=
    if (size col =? 0)%nat then
      <[random_hex 12 rnd := fold_left (fun d '(k, v) => doc_insert k v d) settings_defaults []]> col
    else
      (fun doc => fold_left (fun d '(k, v) => set_default d k v) settings_defaults doc) <$> col in
  set_collections (<["_settings" := col]> (collections db)) db.

Definition migrate_system_defaults (rnd : list byte) (db : Database) : Database :=
  ensure_settings_defaults rnd (ensure_internal_collections db).

(** [Database::load]: [file] is the result of [fs::read] ([None] when it
    fails); [None] as a result is a panic. *)
Definition header_ok (file_data : list byte) : bool :=
  negb (length file_data <? 14)%nat &&
  match file_data with v :: _ => Byte.eqb v Byte.x01 | [] => false end.

Definition decrypt_image (db : Database) (file_data : list byte) : list byte :=
  chacha20 (encryption_key db) (firstn 12 (skipn 1 file_data)) (skipn 13 file_data).

Definition load (rnd : list byte) (file : option (list byte)) (db : Database)
    : option Database :=
  match file with
  | None => Some db
  | Some file_data =>
      if header_ok file_data then
        match deserialize (decrypt_image db file_data) db with
        | None => None
        | Some db => Some (migrate_system_defaults rnd db)
        end
      else Some db
  end.

(** [init]: the first call builds the database from the key, then loads. *)
Definition init (key : string) (rnd : list byte) (file : option (list byte))
    : option Database :=
  load rnd file (new (String.list_byte_of_string key)).

(** Transitions of the engine. A step that goes through [deserialize]
    carries the decrypted image it read. *)
Inductive label : Type :=
  | LPlain
  | LImage (data : list byte).

Definition load_label (db : Database) (file : option (list byte)) : label :=
  match file with
  | Some file_data => if header_ok file_data then LImage (decrypt_image db file_data) else LPlain
  | None => LPlain
  end.

Inductive step : label -> Database -> Database -> Prop :=
  | step_create_collection name flds db :
      step LPlain db (create_collection name flds db).1
  | step_insert collection doc rnd t1 t2 db :
      step LPlain db (insert collection doc rnd t1 t2 db).1.2
  | step_update collection id ups t db :
      step LPlain db (update collection id ups t db).1.2
  | step_delete collection id db :
      step LPlain db (delete collection id db).1.2
  | step_delete_collection name db :
      step LPlain db (delete_collection name db).1.2
  | step_deserialize data db db' :
      deserialize data db = Some db' -> step (LImage data) db db'
  | step_migrate rnd db :
      step LPlain db (migrate_system_defaults rnd db)
  | step_load rnd file db db' :
      load rnd file db = Some db' -> step (load_label db file) db db'.

(** States reachable from [Database::new] through steps allowed by [ok]. *)
Inductive reachable_with (ok : label -> Database -> Prop) : Database -> Prop :=
  | reach_new key : reachable_with ok (new key)
  | reach_step l db db' :
      reachable_with ok db -> ok l db -> step l db db' -> reachable_with ok db'.

Definition reachable : Database -> Prop := reachable_with (fun _ _ => True).

(** An image whose collection table names only collections that have a
    schema once its schema table is read. *)
Definition image_closed (data : list byte) (db : Database) : Prop :=
  match parse_image data with
  | Some (ss, cs) =>
      Forall (fun e => e.1 ∈ dom (schemas db) \/ In e.1 (map fst ss)) cs
  | None => True
  end.

Definition closed_step (l : label) (db : Database) : Prop :=
  match l with
  | LImage data => image_closed data db
  | LPlain => True
  end.

(** The endpoints of [api/collections.rs]. A request is given by the token
    [get_token] extracts from its headers, and its body by the parsed JSON
    document. *)
Record Response : Type := mkResponse { status : Z; body : string }.

Definition dq : string := String.String (ascii_of_nat 34) String.EmptyString.
Definition json_pair (k v : string) : string :=
  String.append "{" (String.append dq (String.append k (String.append dq
    (String.append ":" (String.append dq (String.append v (String.append dq "}"))))))).

Definition created (data : string) : Response := mkResponse 201 data.
Definition bad_request (msg : string) : Response := mkResponse 400 (json_pair "error" msg).
Definition unauthorized : Response := mkResponse 401 (json_pair "error" "Unauthorized").

Definition as_str (v : Value) : option string :=
  match v with VString s => Some s | _ => None end.
Definition as_object (v : Value) : option Document :=
  match v with Object o => Some o | _ => None end.

(** The closure of the [filter_map] over ["fields"]. *)
Definition field_of (f : Value) : option (string * string) :=
  match as_object f with
  | None => None
  | Some obj =>
      match doc_get "name" obj ≫= as_str with
      | None => None
      | Some name =>
          match doc_get "type" obj with
          | None => None
          | Some t => Some (name, default "string" (as_str t))
          end
      end
  end.

Definition json_name (json : Document) : string :=
  default "" (doc_get "name" json ≫= as_str).

Definition json_fields (json : Document) : list (string * string) :=
  match doc_get "fields" json with
  | Some (Array arr) => omap field_of arr
  | _ => []
  end.

(** [Database::list_all_collections] and [Database::list_collections]:
    the keys of the schema map, in its iteration order ([map_to_list]). *)
Definition list_all_collections (db : Database) : list string :=
  map fst (map_to_list (schemas db)).
Definition list_collections (db : Database) : list string :=
  List.filter (fun k => negb (starts_with_underscore k)) (map fst (map_to_list (schemas db))).

(** [Database::find_by]: the first document, in the iteration order of the
    collection, whose [field] is the string [value]. *)
Definition find_by (collection field value : string) (db : Database) : option Document :=
  collections db !! collection ≫= fun col =>
    List.find (fun doc => match doc_get field doc ≫= as_str with
                          | Some s => String.eqb s value
                          | None => false
                          end) (map snd (map_to_list col)).

(** [Database::find_all]. *)
Definition find_all (collection : string) (db : Database) : list Document :=
  default [] ((fun col => map snd (map_to_list col)) <$> collections db !! collection).

(** [auth::validate_token]; [t] is the reading of [now()]. The session is
    the one [find_by] returns; an expired one is removed with
    [Database::delete], whose write and event are part of the result. *)
Definition validate_token (token : string) (t : Z) (db : Database)
    : option string * Database * list Effect :=
  match find_by "_sessions" "token" token db with
  | None => (None, db, [])
  | Some session =>
      match doc_get "expires" session with
      | Some (Int e) =>
          if (e <? t)%Z then
            match doc_get "id" session with
            | Some (VString id) =>
                let '(_, db, effs) := delete "_sessions" id db in (None, db, effs)
            | _ => (None, db, [])
            end
          else (doc_get "user_id" session ≫= as_str, db, [])
      | _ => (None, db, [])
      end
  end.

(** [HashMap::remove] on a document. *)
Definition doc_remove (k : string) (d : Document) : Document :=
  List.filter (fun kv => negb (String.eqb kv.1 k)) d.

(** [auth::get_user]. *)
Definition get_user (token : string) (t : Z) (db : Database)
    : option Document * Database * list Effect :=
  let '(uid, db, effs) := validate_token token t db in
  (uid ≫= fun uid => doc_remove "password" <$> find_one "_users" uid db, db, effs).

(** [auth::is_admin]. *)
Definition is_admin (token : string) (t : Z) (db : Database) : bool * Database * list Effect :=
  let '(user, db, effs) := get_user token t db in
  (default false ((fun s => String.eqb s "admin") <$>
                  (user ≫= fun u => doc_get "role" u ≫= as_str)), db, effs).

(** [api::utils::require_auth] and [api::utils::require_admin] on the
    request's token. *)
Definition require_auth (token : string) (t : Z) (db : Database) : bool * Database * list Effect :=
  let '(uid, db, effs) := validate_token token t db in
  (match uid with Some _ => true | None => false end, db, effs).
Definition require_admin (token : string) (t : Z) (db : Database) : bool * Database * list Effect :=
  is_admin token t db.

(** What an authentication check can do to the store: nothing, or the
    removal of one session from [_sessions], with the write and the
    [doc.deleted] event of [Database::delete]. *)
Definition auth_effect (db db' : Database) (effs : list Effect) : Prop :=
  (db' = db /\ effs = []) \/
  exists col id,
    collections db !! "_sessions" = Some col /\ is_Some (col !! id) /\
    db' = set_collections (<["_sessions" := base.delete id col]> (collections db)) db /\
    effs = [sync db'; Broadcast "doc.deleted" "_sessions" None (Some id)].

(** [api::collections::create_collection]; [ta] is the reading of [now()]
    in the admin check. *)
Definition api_create_collection (token : string) (ta : Z) (json : Document) (db : Database)
    : Response * Database * list Effect :=
  let '(admin, db, effs0) := require_admin token ta db in
  if negb admin then (unauthorized, db, effs0)
  else
    let name := json_name json in
    if String.eqb name "" || starts_with_underscore name then
      (bad_request "Invalid collection name", db, effs0)
    else
      let '(db, effs) := create_collection name (json_fields json) db in
      (created (json_pair "name" name), db, effs0 ++ effs).

(** [Database::serialize]: both maps in their iteration order
    ([map_to_list]). *)
Definition write_field (f : string * string) : list byte :=
  write_string f.1 ++ write_string f.2.
Definition write_schema (e : string * Schema) : list byte :=
  write_string e.1 ++ u32_bytes (length (fields e.2)) ++ concat (map write_field (fields e.2)).
Definition write_entry (e : string * Document) : list byte :=
  write_string e.1 ++ write_doc e.2.
Definition write_collection (e : string * Collection) : list byte :=
  write_string e.1 ++ u32_bytes (size e.2) ++ concat (map write_entry (map_to_list e.2)).
Definition serialize (db : Database) : list byte :=
  u32_bytes (size (schemas db)) ++ concat (map write_schema (map_to_list (schemas db)))
  ++ concat (map write_collection (map_to_list (collections db))).

(** The file written by [sync]: the version byte, the nonce (12 bytes of
    [rnd], so [try_into] succeeds) and the encrypted image. *)
Definition sync_image (rnd : list byte) (db : Database) : list byte :=
  let nonce := random_bytes 12 rnd in
  Byte.x01 :: nonce ++ chacha20 (encryption_key db) nonce (serialize db).

(** [s.replace(c, r)] for an ASCII character [c]: in UTF-8 the byte of an
    ASCII character occurs only as that character. *)
Definition replace_byte (c : byte) (r : list byte) (s : string) : string :=
  String.string_of_list_byte
    (concat (map (fun b => if Byte.eqb b c then r else [b]) (String.list_byte_of_string s))).

(** [i.to_string()] for an [i64]: at most 19 digits. *)
Fixpoint digits (fuel : nat) (n : Z) (acc : list byte) : list byte :=
  match fuel with
  | O => acc
  | S f =>
      let acc := z2b (48 + n mod 10) :: acc in
      if (n <? 10)%Z then acc else digits f (n / 10) acc
  end.
Definition i64_to_string (i : Z) : string :=
  String.string_of_list_byte
    (if (i <? 0)%Z then Byte.x2d :: digits 20 (- i) [] else digits 20 i []).

(** [format!(r#""{}": {}"#, k, v)]. *)
Definition json_member (k v : string) : string :=
  String.append dq (String.append k (String.append dq (String.append ": " v))).
(** [format!(r#""{}":"{}""#, k, v)]. *)
Definition json_field (k v : string) : string :=
  String.append dq (String.append k (String.append dq
    (String.append ":" (String.append dq (String.append v dq))))).

(** [collection == "_users" && k == "password"]. *)
Definition hide_pair (collection k : string) : bool :=
  String.eqb collection "_users" && String.eqb k "password".

Section Json.
(** [f64]'s [Display] (the shortest decimal that reads back to the same
    float) is not modelled: the JSON writers take it as an argument. *)
Variable f64_to_string : Z -> string.

(** [value_to_json]; an object is written by
    [doc_to_json_for_collection("", obj)], inlined here. *)
Fixpoint value_to_json (v : Value) : string :=
  match v with
  | Null => "null"
  | Bool b => if b then "true" else "false"
  | Int i => i64_to_string i
  | Float f => f64_to_string f
  | VString s =>
      String.append dq (String.append
        (replace_byte Byte.x22 [Byte.x5c; Byte.x22] (replace_byte Byte.x5c [Byte.x5c; Byte.x5c] s))
        dq)
  | Array arr =>
      String.append "[" (String.append (String.concat ", "
        ((fix items (l : list Value) : list string :=
            match l with [] => [] | x :: l' => value_to_json x :: items l' end) arr)) "]")
  | Object obj =>
      String.append "{" (String.append (String.concat ", "
        ((fix pairs (l : Document) : list string :=
            match l with
            | [] => []
            | (k, x) :: l' =>
                if hide_pair "" k then pairs l' else json_member k (value_to_json x) :: pairs l'
            end) obj)) "}")
  end.

Definition doc_to_json_for_collection (collection : string) (doc : Document) : string :=
  String.append "{" (String.append (String.concat ", "
    (omap (fun '(k, v) => if hide_pair collection k then None
                          else Some (json_member k (value_to_json v))) doc)) "}").

(** The JSON text [broadcast_event] hands to [realtime::broadcast]. *)
Definition event_json (e : Effect) : option string :=
  match e with
  | Sync _ _ => None
  | Broadcast kind collection doc id =>
      let payload :=
        [json_field "type" kind; json_field "collection" collection]
        ++ match id with Some id => [json_field "id" id] | None => [] end
        ++ match doc with
           | Some doc => [String.append dq (String.append "doc" (String.append dq
                            (String.append ":" (doc_to_json_for_collection collection doc))))]
           | None => []
           end in
      Some (String.append "{" (String.append (String.concat "," payload) "}"))
  end.

(** The events broadcast by a list of effects. *)
Definition broadcasts (effs : list Effect) : list string := omap event_json effs.

(** The remaining handlers of [api/collections.rs]; [ta] and [tb] are the
    readings of [now()] in [require_auth] and in [require_admin]. *)
Definition ok (data : string) : Response := mkResponse 200 data.
Definition not_found : Response := mkResponse 404 (json_pair "error" "Not found").
Definition is_private_collection (name : string) : bool := starts_with_underscore name.
Definition deleted_true : string :=
  String.append "{" (String.append dq (String.append "deleted" (String.append dq ":true}"))).

(** [is_private_collection(collection) && !require_admin(req)]: the admin
    check runs only for a private collection. *)
Definition private_denied (token : string) (tb : Z) (collection : string) (db : Database)
    : bool * Database * list Effect :=
  if is_private_collection collection then
    let '(admin, db, effs) := require_admin token tb db in (negb admin, db, effs)
  else (false, db, []).

Definition api_delete_collection (token : string) (ta : Z) (name : string) (db : Database)
    : Response * Database * list Effect :=
  let '(admin, db, effs0) := require_admin token ta db in
  if negb admin then (unauthorized, db, effs0)
  else
    let '(deleted, db, effs) := delete_collection name db in
    (if deleted then ok deleted_true else bad_request "Cannot delete this collection", db,
     effs0 ++ effs).

Definition api_list_documents (token : string) (ta tb : Z) (collection : string)
    (db : Database) : Response * Database * list Effect :=
  let '(auth, db, effs0) := require_auth token ta db in
  if negb auth then (unauthorized, db, effs0)
  else
    let '(denied, db, effs1) := private_denied token tb collection db in
    if denied then (unauthorized, db, effs0 ++ effs1)
    else
      (ok (String.append "[" (String.append (String.concat ","
             (map (doc_to_json_for_collection collection) (find_all collection db))) "]")),
       db, effs0 ++ effs1).

Definition api_create_document (token : string) (ta tb : Z) (collection : string)
    (doc : Document) (rnd : list byte) (t1 t2 : Z) (db : Database)
    : Response * Database * list Effect :=
  let '(auth, db, effs0) := require_auth token ta db in
  if negb auth then (unauthorized, db, effs0)
  else
    let '(denied, db, effs1) := private_denied token tb collection db in
    if denied then (unauthorized, db, effs0 ++ effs1)
    else
      let '(r, db, effs) := insert collection doc rnd t1 t2 db in
      match r with
      | Some id => (created (json_pair "id" id), db, effs0 ++ effs1 ++ effs)
      | None => (bad_request "Failed to create document", db, effs0 ++ effs1 ++ effs)
      end.

Definition api_get_document (token : string) (ta tb : Z) (collection id : string)
    (db : Database) : Response * Database * list Effect :=
  let '(auth, db, effs0) := require_auth token ta db in
  if negb auth then (unauthorized, db, effs0)
  else
    let '(denied, db, effs1) := private_denied token tb collection db in
    if denied then (unauthorized, db, effs0 ++ effs1)
    else
      (match find_one collection id db with
       | Some doc => ok (doc_to_json_for_collection collection doc)
       | None => not_found
       end, db, effs0 ++ effs1).

Definition api_update_document (token : string) (ta tb : Z) (collection id : string)
    (updates : Document) (t : Z) (db : Database) : Response * Database * list Effect :=
  let '(auth, db, effs0) := require_auth token ta db in
  if negb auth then (unauthorized, db, effs0)
  else
    let '(denied, db, effs1) := private_denied token tb collection db in
    if denied then (unauthorized, db, effs0 ++ effs1)
    else
      let '(updated, db, effs) := update collection id updates t db in
      (if updated
       then ok (String.append "{" (String.append (json_field "id" id) (String.append ","
                  (String.append dq (String.append "updated" (String.append dq ":true}"))))))
       else not_found, db, effs0 ++ effs1 ++ effs).

Definition api_delete_document (token : string) (ta tb : Z) (collection id : string)
    (db : Database) : Response * Database * list Effect :=
  let '(auth, db, effs0) := require_auth token ta db in
  if negb auth then (unauthorized, db, effs0)
  else
    let '(denied, db, effs1) := private_denied token tb collection db in
    if denied then (unauthorized, db, effs0 ++ effs1)
    else
      let '(deleted, db, effs) := delete collection id db in
      (if deleted then ok deleted_true else not_found, db, effs0 ++ effs1 ++ effs).

End Json.

End Db.

(** Invariants on the key sets of the two maps. *)
(** The keys of the two maps agree and the settings collection has a
    schema. *)
Definition keys_agree (db : Db.Database) : Prop :=
  dom (Db.collections db) = dom (Db.schemas db) /\ "_settings" ∈ dom (Db.schemas db).

Definition keys_sub (db : Db.Database) : Prop :=
  dom (Db.schemas db) ⊆ dom (Db.collections db).

(** A string that [write_string] and [read_string] carry unchanged: valid
    UTF-8 and shorter than [2^32] bytes. *)
Definition str_ok (s : string) : bool := utf8_valid s && (Z.of_nat (str_len s) <? 2 ^ 32)%Z.

(** A database whose image [serialize] writes without any [u32] length
    or count wrapping, and whose documents respect the types of the
    source. *)
Definition db_codec_ok (db : Db.Database) : bool :=
  (Z.of_nat (size (Db.schemas db)) <? 2 ^ 32)%Z &&
  forallb (fun '(name, sc) =>
             str_ok name && (Z.of_nat (length (Db.fields sc)) <? 2 ^ 32)%Z &&
             forallb (fun '(f, t) => str_ok f && str_ok t) (Db.fields sc))
          (map_to_list (Db.schemas db)) &&
  forallb (fun '(name, col) =>
             str_ok name && (Z.of_nat (size col) <? 2 ^ 32)%Z &&
             forallb (fun '(id, d) => str_ok id && doc_wf d && doc_fits_u32 d) (map_to_list col))
          (map_to_list (Db.collections db)).

(** The loop of [ensure_settings_defaults] over one settings document. *)
Definition fill_defaults (doc : Document) : Document :=
  fold_left (fun d '(k, v) => Db.set_default d k v) Db.settings_defaults doc.

(** Every document of a settings collection has every key of the
    defaults. *)
Definition settings_filled (col : Db.Collection) : Prop :=
  forall id d, col !! id = Some d -> forall k v, In (k, v) Db.settings_defaults -> doc_contains k d = true.

(** The pairs [doc_to_json_for_collection("_users", ..)] writes. *)
Definition not_password (kv : string * Value) : bool := negb (String.eqb kv.1 "password").

(** Sample stores for the tests and the concrete instances below. In
    [demo_db], the user ["010101010101010101010101"] is an administrator
    whose session has token ["tok"], the user ["040404040404040404040404"]
    has role ["user"] and a session with token ["utok"]; both sessions
    expire at time 1000. The collection ["notes"] holds one document. *)
Definition demo_db : Db.Database :=
  let db := Db.new (String.list_byte_of_string "key") in
  let db := (Db.insert "_users" [("email", VString "a@b.c"); ("role", VString "admin")]
               (repeat Byte.x01 12) 0 0 db).1.2 in
  let db := (Db.insert "_sessions" [("user_id", VString "010101010101010101010101");
                                    ("token", VString "tok"); ("expires", Int 1000)]
               (repeat Byte.x02 12) 0 0 db).1.2 in
  let db := (Db.insert "_users" [("email", VString "u@b.c"); ("role", VString "user")]
               (repeat Byte.x04 12) 0 0 db).1.2 in
  let db := (Db.insert "_sessions" [("user_id", VString "040404040404040404040404");
                                    ("token", VString "utok"); ("expires", Int 1000)]
               (repeat Byte.x05 12) 0 0 db).1.2 in
  let db := (Db.create_collection "notes" [("title", "string")] db).1 in
  (Db.insert "notes" [("title", VString "kept")] (repeat Byte.x03 12) 10 10 db).1.2.

(** A store with the same key as [demo_db], an empty ["notes"] with no
    fields and a collection ["archive"] with one document. *)
Definition other_db : Db.Database :=
  let db := Db.new (String.list_byte_of_string "key") in
  let db := (Db.create_collection "notes" [] db).1 in
  let db := (Db.create_collection "archive" [("title", "string")] db).1 in
  (Db.insert "archive" [("title", VString "old")] (repeat Byte.x06 12) 5 5 db).1.2.

(** A store whose [_settings] holds one document with a page title of its
    own and none of the other keys. *)
Definition custom_settings_db : Db.Database :=
  (Db.insert "_settings" [("page_title", VString "My site"); ("app_port", Int 8080)]
     (repeat Byte.x07 12) 0 0 (Db.new [])).1.2.

(* ------------------------------------------------------------------ *)
(** * Tests of the model on concrete inputs *)

Example codec_small :
  let d := [("a", Array [Int (-5); VString "hi"]); ("b", Object [("c", Bool true)])] in
  option_map fst (read_doc (write_doc d) 0) = Some d.
Proof. vm_compute. reflexivity. Qed.

Example sha256_abc :
  Crypto.hex_encode (Crypto.sha256 (String.list_byte_of_string "abc"))
  = "ba7816bf8f01cfea414140de5dae2223b00361a396177a9cb410ff61f20015ad".
Proof. vm_compute. reflexivity. Qed.

(** RFC 8439, 2.3.2: key 00..1f, counter 1, nonce 00 00 00 09 00 00 00 4a
    00 00 00 00. *)
Example chacha20_block_rfc8439 :
  Crypto.hex_encode (Crypto.chacha20_block (map z2b (seqZ 0 32)) 1
     (map z2b [0; 0; 0; 9; 0; 0; 0; 0x4a; 0; 0; 0; 0]%Z))
  = "10f1e7e4d13b5915500fdd1fa32071c4c7d1f4c733c068030422aa9ac3d46c4ed2826446079faa0914c2d705d98b02a2b5129cd1de164eb9cbd083e8a2503c4e".
Proof. vm_compute. reflexivity. Qed.

(** The session checks on [demo_db]: before expiry ["tok"] is an
    administrator's and ["utok"] a plain user's; after expiry the check of
    ["tok"] fails and removes its session. *)
Example demo_db_sessions :
  (Db.require_admin "tok" 500 demo_db).1.1 = true /\
  (Db.require_auth "utok" 500 demo_db).1.1 = true /\
  (Db.require_admin "utok" 500 demo_db).1.1 = false /\
  (Db.require_auth "tok" 2000 demo_db).1.1 = false /\
  (size <$> Db.collections (Db.require_auth "tok" 2000 demo_db).1.2 !! "_sessions") = Some 1%nat /\
  (size <$> Db.collections demo_db !! "_sessions") = Some 2%nat.
Proof. vm_compute. repeat split. Qed.

(* ------------------------------------------------------------------ *)
(** * Lemmas on bytes, integers and buffers *)

Lemma b2z_z2b (z : Z) : b2z (z2b z) = (z mod 256)%Z.
Proof.
  unfold z2b, b2z.
  pose proof (Z.mod_pos_bound z 256 ltac:(lia)).
  destruct (Byte.of_N (Z.to_N (z mod 256))) eqn:E.
  - apply Byte.to_of_N in E. rewrite E. lia.
  - apply Byte.of_N_None_iff in E. lia.
Qed.

Lemma z2b_b2z (b : byte) : z2b (b2z b) = b.
Proof. destruct b; reflexivity. Qed.

Lemma b2z_range (b : byte) : (0 <= b2z b < 256)%Z.
Proof. unfold b2z. pose proof (Byte.to_N_bounded b). lia. Qed.

Lemma xorb_involutive (x y : bool) : xorb (xorb x y) y = x.
Proof. destruct x, y; reflexivity. Qed.

Lemma bxor_involutive (a k : byte) : bxor (bxor a k) k = a.
Proof.
  unfold bxor.
  destruct (Byte.to_bits a) as (a0 & a1 & a2 & a3 & a4 & a5 & a6 & a7) eqn:Ea.
  destruct (Byte.to_bits k) as (k0 & k1 & k2 & k3 & k4 & k5 & k6 & k7).
  rewrite Byte.to_bits_of_bits.
  rewrite <- (Byte.of_bits_to_bits a), Ea.
  cbv beta iota. repeat f_equal; apply xorb_involutive.
Qed.

Lemma length_to_le_bytes (w : nat) (n : Z) : length (to_le_bytes w n) = w.
Proof. revert n; induction w; intros n; simpl; auto. Qed.

Lemma from_to_le_bytes (w : nat) (n : Z) :
  from_le_bytes (to_le_bytes w n) = (n mod 256 ^ Z.of_nat w)%Z.
Proof.
  revert n; induction w as [|w IH]; intros n; simpl.
  - rewrite Z.mod_1_r. reflexivity.
  - rewrite b2z_z2b, IH.
    rewrite Nat2Z.inj_succ, Z.pow_succ_r by lia.
    rewrite Z.rem_mul_r; [reflexivity | lia |].
    apply Z.pow_pos_nonneg; lia.
Qed.

Lemma skipn_nth_error (data rest : list byte) (pos : nat) (b : byte) :
  skipn pos data = b :: rest -> nth_error data pos = Some b.
Proof.
  intros H. rewrite <- hd_error_skipn, H. reflexivity.
Qed.

(** A buffer holding [a ++ rest] from [pos] on. *)
Lemma skipn_app_split (data a rest : list byte) (pos : nat) :
  skipn pos data = a ++ rest ->
  (a = [] \/ (pos + length a <= length data)%nat) /\
  firstn (length a) (skipn pos data) = a /\
  skipn (pos + length a) data = rest.
Proof.
  intros H. split; [|split].
  - destruct a as [|x a]; [left; reflexivity|right].
    pose proof (f_equal (@length byte) H) as HL.
    rewrite length_skipn, length_app in HL. simpl in HL |- *. lia.
  - rewrite H, firstn_app, Nat.sub_diag, firstn_all. simpl. apply app_nil_r.
  - rewrite Nat.add_comm, <- skipn_skipn, H, skipn_app, Nat.sub_diag, skipn_all.
    reflexivity.
Qed.

Lemma read_u32_bytes (data rest : list byte) (pos : nat) (n : Z) :
  skipn pos data = to_le_bytes 4 n ++ rest ->
  read_u32 data pos = Some ((n mod 2 ^ 32)%Z, (pos + 4)%nat).
Proof.
  intros H. destruct (skipn_app_split _ _ _ _ H) as (HL & HF & _).
  destruct HL as [HL|HL]; [discriminate|].
  rewrite length_to_le_bytes in HL, HF.
  unfold read_u32. rewrite (proj2 (Nat.leb_le _ _) HL), HF, from_to_le_bytes.
  reflexivity.
Qed.

Lemma utf8_next_len (b : byte) (rest : list byte) :
  (1 <= snd (utf8_next b rest))%nat /\
  (fst (utf8_next b rest) = true -> (snd (utf8_next b rest) <= S (length rest))%nat).
Proof.
  unfold utf8_next.
  assert (Hin : forall lo hi i, in_range lo hi (nth_error rest i) = true ->
                 (S i <= length rest)%nat).
  { intros lo hi i Hr. destruct (nth_error rest i) eqn:E; [|discriminate].
    apply nth_error_Some. congruence. }
  repeat match goal with
  | |- context [if ?c then _ else _] => destruct c eqn:?
  | |- context [let '(_, _) := ?p in _] => destruct p eqn:?
  end; simpl; split; intros; try lia;
  repeat match goal with
  | H : in_range _ _ (nth_error rest ?i) = true |- _ =>
      apply Hin in H
  end; lia.
Qed.

Lemma lossy_go_valid (f : nat) (bs : list byte) :
  (length bs <= f)%nat -> valid_go f bs = true -> lossy_go f bs = bs.
Proof.
  revert bs; induction f as [|f IH]; intros bs Hl Hv.
  - destruct bs; [reflexivity | simpl in Hl; lia].
  - destruct bs as [|b rest]; [reflexivity|].
    simpl in Hv |- *.
    pose proof (utf8_next_len b rest) as [H1 H2].
    destruct (utf8_next b rest) as [ok n]. simpl in H1, H2.
    destruct ok; [|discriminate].
    rewrite IH.
    + apply firstn_skipn.
    + rewrite length_skipn. simpl in Hl |- *. lia.
    + exact Hv.
Qed.

Lemma from_utf8_lossy_valid (s : string) :
  utf8_valid s = true -> from_utf8_lossy (String.list_byte_of_string s) = s.
Proof.
  intros H. unfold from_utf8_lossy. rewrite lossy_go_valid; auto.
  apply String.string_of_list_byte_of_string.
Qed.

Lemma read_string_bytes (data rest : list byte) (pos : nat) (s : string) :
  utf8_valid s = true -> (Z.of_nat (str_len s) < 2 ^ 32)%Z ->
  skipn pos data = write_string s ++ rest ->
  read_string data pos = Some (s, (pos + length (write_string s))%nat).
Proof.
  intros Hv Hlen H. unfold write_string, u32_bytes in H.
  rewrite <- app_assoc in H.
  unfold read_string. rewrite (read_u32_bytes _ _ _ _ H).
  destruct (skipn_app_split _ _ _ _ H) as (HL & _ & HS).
  destruct HL as [HL|HL]; [discriminate|].
  rewrite length_to_le_bytes in HL, HS.
  assert (Hs : skipn (pos + 4) data = String.list_byte_of_string s ++ rest) by exact HS.
  destruct (skipn_app_split _ _ _ _ Hs) as (HL2 & HF2 & _).
  assert (HL2' : (pos + 4 + length (String.list_byte_of_string s) <= length data)%nat).
  { destruct HL2 as [HE|HE]; [rewrite HE; simpl; lia | exact HE]. }
  unfold as_u32. rewrite Zmod_mod, Z.mod_small by lia. rewrite Nat2Z.id.
  unfold str_len in *.
  rewrite (proj2 (Nat.leb_le _ _) HL2'), HF2, from_utf8_lossy_valid by exact Hv.
  unfold write_string, u32_bytes. rewrite length_app, length_to_le_bytes.
  f_equal. f_equal. lia.
Qed.

Lemma skipn_cons_next (data rest : list byte) (pos : nat) (b : byte) :
  skipn pos data = b :: rest ->
  nth_error data pos = Some b /\ skipn (S pos) data = rest.
Proof.
  intros H. split; [now apply (skipn_nth_error _ rest)|].
  destruct (skipn_app_split data [b] rest pos H) as (_ & _ & HS).
  rewrite <- HS. f_equal. simpl. lia.
Qed.

Lemma to_i64_of_mod (i : Z) :
  (- 2 ^ 63 <= i < 2 ^ 63)%Z -> to_i64 (i mod 256 ^ Z.of_nat 8) = i.
Proof.
  intros Hi. change (256 ^ Z.of_nat 8)%Z with (2 ^ 64)%Z. unfold to_i64.
  destruct (Z_le_gt_dec 0 i).
  - rewrite Z.mod_small by lia. rewrite (proj2 (Z.ltb_lt _ _)) by lia. reflexivity.
  - rewrite <- (Z.mod_unique i (2 ^ 64) (-1) (i + 2 ^ 64)) by lia.
    rewrite (proj2 (Z.ltb_ge _ _)) by lia. lia.
Qed.

(** Induction over values, with the hypothesis on the elements of arrays
    and objects. *)
Section ValueInd.
Variable P : Value -> Prop.
Hypothesis HNull : P Null.
Hypothesis HBool : forall b, P (Bool b).
Hypothesis HInt : forall i, P (Int i).
Hypothesis HFloat : forall f, P (Float f).
Hypothesis HString : forall s, P (VString s).
Hypothesis HArray : forall l, Forall P l -> P (Array l).
Hypothesis HObject : forall o, Forall (fun kv => P (snd kv)) o -> P (Object o).

Fixpoint value_ind_deep (v : Value) : P v :=
  match v with
  | Null => HNull
  | Bool b => HBool b
  | Int i => HInt i
  | Float f => HFloat f
  | VString s => HString s
  | Array l =>
      HArray l ((fix go (l : list Value) : Forall P l :=
                   match l with
                   | [] => @List.Forall_nil Value P
                   | x :: l' => @List.Forall_cons Value P x l' (value_ind_deep x) (go l')
                   end) l)
  | Object o =>
      HObject o ((fix go (o : Document) : Forall (fun kv => P (snd kv)) o :=
                    match o with
                    | [] => @List.Forall_nil _ (fun kv => P (snd kv))
                    | (k, x) :: o' => @List.Forall_cons _ (fun kv => P (snd kv)) (k, x) o' (value_ind_deep x) (go o')
                    end) o)
  end.
End ValueInd.

Lemma write_value_Array (l : list Value) :
  write_value (Array l) = Byte.x05 :: u32_bytes (length l) ++ write_items l.
Proof. reflexivity. Qed.
Lemma write_value_Object (o : Document) :
  write_value (Object o) = Byte.x06 :: write_doc o.
Proof. reflexivity. Qed.
Lemma value_wf_Array (l : list Value) : value_wf (Array l) = items_wf l.
Proof. reflexivity. Qed.
Lemma value_wf_Object (o : Document) :
  value_wf (Object o) = bool_decide (NoDup (map fst o)) && pairs_wf o.
Proof. reflexivity. Qed.
Lemma value_fits_Array (l : list Value) :
  value_fits_u32 (Array l) = (Z.of_nat (length l) <? 2 ^ 32)%Z && items_fit l.
Proof. reflexivity. Qed.
Lemma value_fits_Object (o : Document) :
  value_fits_u32 (Object o) = (Z.of_nat (length o) <? 2 ^ 32)%Z && pairs_fit o.
Proof. reflexivity. Qed.

Lemma doc_insert_fresh (k : string) (v : Value) (d : Document) :
  k ∉ map fst d -> doc_insert k v d = d ++ [(k, v)].
Proof.
  induction d as [|[k' v'] d IH]; simpl; intros Hk; [reflexivity|].
  destruct (String.eqb_spec k k') as [->|Hne].
  - exfalso. apply Hk. left.
  - rewrite IH; [reflexivity|]. intros Hin. apply Hk. right. exact Hin.
Qed.

Lemma fold_doc_insert_nodup (l acc : Document) :
  NoDup (map fst (acc ++ l)) ->
  fold_left (fun d '(k, v) => doc_insert k v d) l acc = acc ++ l.
Proof.
  revert acc; induction l as [|[k v] l IH]; intros acc H; simpl.
  - rewrite app_nil_r. reflexivity.
  - rewrite doc_insert_fresh.
    + rewrite IH; [rewrite <- app_assoc; reflexivity|].
      rewrite <- app_assoc. exact H.
    + rewrite map_app in H. apply NoDup_app in H as (_ & Hdis & _).
      intros Hin. apply (Hdis k Hin). simpl. left.
Qed.

Lemma read_items_back (f : nat) (data : list byte) (l : list Value) :
  Forall reads_back l -> items_wf l = true -> items_fit l = true ->
  (length (write_items l) <= f)%nat ->
  forall (pos : nat) (rest : list byte), skipn pos data = write_items l ++ rest ->
  read_many (read_value f data) (length l) pos
  = Some (l, (pos + length (write_items l))%nat).
Proof.
  induction 1 as [|x l Hx Hl IH]; intros Hwf Hfit Hlen pos rest H; simpl in *.
  - rewrite Nat.add_0_r. reflexivity.
  - apply andb_prop in Hwf as [Hwx Hwl]. apply andb_prop in Hfit as [Hfx Hfl].
    rewrite length_app in Hlen. rewrite <- app_assoc in H.
    rewrite (Hx Hwx Hfx f data pos _ ltac:(lia) H).
    destruct (skipn_app_split _ _ _ _ H) as (_ & _ & HS).
    rewrite (IH Hwl Hfl ltac:(lia) _ rest HS).
    rewrite length_app. do 2 f_equal. lia.
Qed.

Lemma read_pairs_back (f : nat) (data : list byte) (o : Document) :
  Forall (fun kv => reads_back (snd kv)) o -> pairs_wf o = true ->
  pairs_fit o = true -> (length (write_pairs o) <= f)%nat ->
  forall (pos : nat) (rest : list byte), skipn pos data = write_pairs o ++ rest ->
  read_many (read_pair (read_value f data) data) (length o) pos
  = Some (o, (pos + length (write_pairs o))%nat).
Proof.
  induction 1 as [|[k x] o Hx Ho IH]; intros Hwf Hfit Hlen pos rest H;
    cbn [write_pairs pairs_wf pairs_fit read_many length snd] in *.
  - rewrite Nat.add_0_r. reflexivity.
  - apply andb_prop in Hwf as [Hw1 Hwo]. apply andb_prop in Hw1 as [Hk Hwx].
    apply andb_prop in Hfit as [Hf1 Hfo]. apply andb_prop in Hf1 as [Hkf Hfx].
    apply Z.ltb_lt in Hkf.
    rewrite !length_app in Hlen. rewrite <- !app_assoc in H.
    unfold read_pair at 1. rewrite (read_string_bytes _ _ _ _ Hk Hkf H).
    destruct (skipn_app_split _ _ _ _ H) as (_ & _ & HS).
    rewrite (Hx Hwx Hfx f data _ _ ltac:(lia) HS).
    destruct (skipn_app_split _ _ _ _ HS) as (_ & _ & HS2).
    rewrite (IH Hwo Hfo ltac:(lia) _ rest HS2).
    rewrite !length_app. do 2 f_equal. lia.
Qed.

Lemma read_doc_with_back (f : nat) (data : list byte) (o : Document) :
  Forall (fun kv => reads_back (snd kv)) o ->
  value_wf (Object o) = true -> value_fits_u32 (Object o) = true ->
  (length (write_doc o) <= f)%nat ->
  forall (pos : nat) (rest : list byte), skipn pos data = write_doc o ++ rest ->
  read_doc_with (read_value f data) data pos
  = Some (o, (pos + length (write_doc o))%nat).
Proof.
  intros HF Hwf Hfit Hlen pos rest H.
  rewrite value_wf_Object in Hwf. rewrite value_fits_Object in Hfit.
  apply andb_prop in Hwf as [Hnd Hwo]. apply bool_decide_eq_true in Hnd.
  apply andb_prop in Hfit as [Hlo Hfo]. apply Z.ltb_lt in Hlo.
  unfold write_doc, u32_bytes in *. rewrite <- app_assoc in H.
  unfold read_doc_with. rewrite (read_u32_bytes _ _ _ _ H).
  unfold as_u32. rewrite Zmod_mod, Z.mod_small by lia. rewrite Nat2Z.id.
  destruct (skipn_app_split _ _ _ _ H) as (_ & _ & HS).
  rewrite length_to_le_bytes in HS.
  rewrite length_app, length_to_le_bytes in Hlen.
  rewrite (read_pairs_back f data o HF Hwo Hfo ltac:(lia) _ rest HS).
  rewrite fold_doc_insert_nodup by exact Hnd.
  rewrite length_app, length_to_le_bytes. simpl. do 2 f_equal. lia.
Qed.

Lemma read_value_back (v : Value) : reads_back v.
Proof.
  induction v as [| b | i | fl | s | l IHl | o IHo] using value_ind_deep;
    unfold reads_back; intros Hwf Hfit f data pos rest Hlen H.
  - (* Null *)
    destruct f as [|f]; [simpl in Hlen; lia|].
    apply skipn_cons_next in H as [Hn _].
    cbn [read_value]. rewrite Hn.
    cbn -[nth_error Nat.leb Nat.add firstn skipn length read_string read_u32
          read_many read_doc_with write_value write_string to_le_bytes u32_bytes write_doc]. do 2 f_equal; cbn [length]; rewrite ?length_app, ?length_to_le_bytes;
      first [lia | simpl; lia].
  - (* Bool *)
    destruct f as [|f]; [simpl in Hlen; lia|].
    cbn [write_value] in H. rewrite <- app_comm_cons in H.
    apply skipn_cons_next in H as [Hn H].
    apply skipn_cons_next in H as [Hn2 _].
    cbn [read_value]. rewrite Hn. cbn -[nth_error]. rewrite Hn2.
    destruct b; cbn; do 2 f_equal; cbn [length]; rewrite ?length_app, ?length_to_le_bytes;
      first [lia | simpl; lia].
  - (* Int *)
    destruct f as [|f]; [simpl in Hlen; lia|].
    cbn [write_value] in H. rewrite <- app_comm_cons in H.
    apply skipn_cons_next in H as [Hn H].
    destruct (skipn_app_split _ _ _ _ H) as ([HE | HL] & HF & _);
      rewrite length_to_le_bytes in *; [discriminate|].
    cbn [read_value]. rewrite Hn.
    cbn -[nth_error Nat.leb Nat.add firstn skipn length read_string read_u32
          read_many read_doc_with write_value write_string to_le_bytes u32_bytes write_doc].
    rewrite (proj2 (Nat.leb_le _ _) HL), HF, from_to_le_bytes.
    cbn in Hwf. apply andb_prop in Hwf as [H1 H2].
    apply Z.leb_le in H1. apply Z.ltb_lt in H2.
    rewrite to_i64_of_mod by lia. do 2 f_equal; cbn [length]; rewrite ?length_app, ?length_to_le_bytes;
      first [lia | simpl; lia].
  - (* Float *)
    destruct f as [|f]; [simpl in Hlen; lia|].
    cbn [write_value] in H. rewrite <- app_comm_cons in H.
    apply skipn_cons_next in H as [Hn H].
    destruct (skipn_app_split _ _ _ _ H) as ([HE | HL] & HF & _);
      rewrite length_to_le_bytes in *; [discriminate|].
    cbn [read_value]. rewrite Hn.
    cbn -[nth_error Nat.leb Nat.add firstn skipn length read_string read_u32
          read_many read_doc_with write_value write_string to_le_bytes u32_bytes write_doc].
    rewrite (proj2 (Nat.leb_le _ _) HL), HF, from_to_le_bytes.
    cbn in Hwf. apply andb_prop in Hwf as [H1 H2].
    apply Z.leb_le in H1. apply Z.ltb_lt in H2.
    change (256 ^ Z.of_nat 8)%Z with (2 ^ 64)%Z.
    rewrite Z.mod_small by lia. do 2 f_equal; cbn [length]; rewrite ?length_app, ?length_to_le_bytes;
      first [lia | simpl; lia].
  - (* String *)
    destruct f as [|f]; [simpl in Hlen; lia|].
    cbn [write_value] in H. rewrite <- app_comm_cons in H.
    apply skipn_cons_next in H as [Hn H].
    cbn in Hwf, Hfit. apply Z.ltb_lt in Hfit.
    cbn [read_value]. rewrite Hn.
    cbn -[nth_error Nat.leb Nat.add firstn skipn length read_string read_u32
          read_many read_doc_with write_value write_string to_le_bytes u32_bytes write_doc].
    rewrite (read_string_bytes _ _ _ _ Hwf Hfit H). do 2 f_equal. unfold write_string, u32_bytes. rewrite length_app, length_to_le_bytes. cbn [write_value length]. unfold write_string, u32_bytes. rewrite length_app, length_to_le_bytes. lia.
  - (* Array *)
    rewrite write_value_Array in Hlen, H |- *.
    destruct f as [|f]; [simpl in Hlen; lia|].
    cbn [write_value] in H. rewrite <- app_comm_cons in H.
    apply skipn_cons_next in H as [Hn H].
    rewrite value_wf_Array in Hwf. rewrite value_fits_Array in Hfit.
    apply andb_prop in Hfit as [Hl Hfl]. apply Z.ltb_lt in Hl.
    unfold u32_bytes in *. rewrite <- app_assoc in H.
    cbn [read_value]. rewrite Hn.
    cbn -[nth_error Nat.leb Nat.add firstn skipn length read_string read_u32
          read_many read_doc_with write_value write_string to_le_bytes u32_bytes write_doc].
    rewrite (read_u32_bytes _ _ _ _ H).
    unfold as_u32. rewrite Zmod_mod, Z.mod_small by lia. rewrite Nat2Z.id.
    destruct (skipn_app_split _ _ _ _ H) as (_ & _ & HS).
    rewrite length_to_le_bytes in HS.
    cbn [length] in Hlen. rewrite length_app, length_to_le_bytes in Hlen.
    rewrite (read_items_back f data l IHl Hwf Hfl ltac:(lia) _ rest HS).
    do 2 f_equal; cbn [length]; rewrite ?length_app, ?length_to_le_bytes;
      first [lia | simpl; lia].
  - (* Object *)
    rewrite write_value_Object in Hlen, H |- *.
    destruct f as [|f]; [simpl in Hlen; lia|].
    cbn [write_value] in H. rewrite <- app_comm_cons in H.
    apply skipn_cons_next in H as [Hn H].
    cbn [read_value]. rewrite Hn.
    cbn -[nth_error Nat.leb Nat.add firstn skipn length read_string read_u32
          read_many read_doc_with write_value write_string to_le_bytes u32_bytes write_doc].
    cbn [length] in Hlen.
    rewrite (read_doc_with_back f data o IHo Hwf Hfit ltac:(lia) _ rest H).
    do 2 f_equal; cbn [length]; rewrite ?length_app, ?length_to_le_bytes;
      first [lia | simpl; lia].
Qed.

Lemma read_doc_back (d : Document) :
  doc_wf d = true -> doc_fits_u32 d = true ->
  read_doc (write_doc d) 0 = Some (d, length (write_doc d)).
Proof.
  intros Hwf Hfit. unfold read_doc.
  apply (read_doc_with_back _ _ d) with (rest := []); auto.
  - apply Forall_forall. intros kv _. apply read_value_back.
  - rewrite app_nil_r. reflexivity.
Qed.

(** A document whose string is [2^32] bytes long: its length prefix wraps
    to [0]. *)
Lemma read_doc_wrapped_string (k s : string) :
  utf8_valid k = true -> (Z.of_nat (str_len k) < 2 ^ 32)%Z ->
  Z.of_nat (str_len s) = (2 ^ 32)%Z ->
  option_map fst (read_doc (write_doc [(k, VString s)]) 0)
  = Some [(k, VString "")].
Proof.
  intros Hk Hkl Hs.
  set (data := write_doc [(k, VString s)]).
  assert (H0 : skipn 0 data =
     to_le_bytes 4 (as_u32 1) ++ write_string k ++
     Byte.x04 :: to_le_bytes 4 0 ++ String.list_byte_of_string s).
  { unfold data, write_doc, u32_bytes. cbn [write_pairs write_value length skipn].
    unfold write_string at 2, u32_bytes. unfold as_u32 at 2.
    rewrite Hs, Z_mod_same_full, app_nil_r. reflexivity. }
  unfold read_doc, read_doc_with.
  rewrite (read_u32_bytes _ _ _ _ H0).
  destruct (skipn_app_split _ _ _ _ H0) as (_ & _ & H1).
  rewrite length_to_le_bytes in H1.
  change (Z.to_nat (as_u32 1 mod 2 ^ 32)) with 1%nat.
  cbn [read_many]. unfold read_pair at 1.
  rewrite (read_string_bytes _ _ _ _ Hk Hkl H1).
  destruct (skipn_app_split _ _ _ _ H1) as (_ & _ & H2).
  apply skipn_cons_next in H2 as [Hn H3].
  cbn [read_value]. rewrite Hn.
  cbn -[nth_error Nat.leb Nat.add firstn skipn length read_string read_u32
        read_many read_doc_with write_value write_string to_le_bytes u32_bytes write_doc].
  unfold read_string. rewrite (read_u32_bytes _ _ _ _ H3).
  destruct (skipn_app_split _ _ _ _ H3) as ([HE | HL] & _ & _);
    [rewrite <- app_nil_r in HE; discriminate|].
  rewrite length_to_le_bytes in HL.
  rewrite Zmod_0_l. cbn [Z.to_nat]. rewrite Nat.add_0_r.
  rewrite (proj2 (Nat.leb_le _ _) HL). reflexivity.
Qed.

Lemma valid_go_ascii_a (n : nat) : valid_go n (repeat Byte.x61 n) = true.
Proof. induction n as [|n IH]; [reflexivity|]. simpl. exact IH. Qed.

Lemma big_string_bytes :
  String.list_byte_of_string big_string = repeat Byte.x61 (Z.to_nat (2 ^ 32)).
Proof. unfold big_string. apply String.list_byte_of_string_of_list_byte. Qed.

Lemma big_string_len : Z.of_nat (str_len big_string) = (2 ^ 32)%Z.
Proof. unfold str_len. rewrite big_string_bytes, repeat_length. lia. Qed.

Lemma big_string_valid : utf8_valid big_string = true.
Proof.
  unfold utf8_valid. rewrite big_string_bytes, repeat_length. apply valid_go_ascii_a.
Qed.

(* ------------------------------------------------------------------ *)
(** * ChaCha20 is an involution *)

Section ChaCha.
Import Crypto.

Lemma length_concat_map4 (f : nat -> list byte) (l : list nat) :
  (forall i, length (f i) = 4%nat) ->
  length (concat (map f l)) = (4 * length l)%nat.
Proof.
  intros Hf. induction l as [|i l IH]; [reflexivity|].
  cbn [map concat length]. rewrite length_app, Hf, IH. lia.
Qed.

Lemma length_chacha20_block (k : list byte) (c : Z) (n : list byte) :
  length (chacha20_block k c n) = 64%nat.
Proof.
  unfold chacha20_block. cbv zeta.
  rewrite length_concat_map4; [reflexivity|]. intros i. apply length_to_le_bytes.
Qed.

Lemma zip_with_bxor_involutive (a ks : list byte) :
  (length a <= length ks)%nat -> zip_with bxor (zip_with bxor a ks) ks = a.
Proof.
  revert ks. induction a as [|x a IH]; intros [|k ks] H; cbn in H |- *; try lia; try reflexivity.
  rewrite bxor_involutive, IH by lia. reflexivity.
Qed.

Lemma chacha20_go_nil (k n : list byte) (f : nat) (i : Z) : chacha20_go k n f i [] = [].
Proof. destruct f; reflexivity. Qed.

Lemma chacha20_go_cons (k n : list byte) (f : nat) (i : Z) (d : list byte) :
  d <> [] ->
  chacha20_go k n (S f) i d
  = zip_with bxor (firstn 64 d) (chacha20_block k (as_u32 i) n)
    ++ chacha20_go k n f (i + 1) (skipn 64 d).
Proof. destruct d; [congruence|reflexivity]. Qed.

Lemma length_chacha20_go (k n : list byte) (f : nat) (i : Z) (d : list byte) :
  (length d <= f)%nat -> length (chacha20_go k n f i d) = length d.
Proof.
  revert i d. induction f as [|f IH]; intros i d H.
  - destruct d; [reflexivity|cbn in H; lia].
  - destruct d as [|x d]; [reflexivity|].
    rewrite chacha20_go_cons by discriminate.
    rewrite length_app, length_zip_with, length_firstn, length_chacha20_block, IH;
      rewrite ?length_skipn; cbn [length] in *; lia.
Qed.

Lemma chacha20_go_involutive (k n : list byte) (f1 f2 : nat) (i : Z) (d : list byte) :
  (length d <= f1)%nat -> (length d <= f2)%nat ->
  chacha20_go k n f2 i (chacha20_go k n f1 i d) = d.
Proof.
  revert f2 i d. induction f1 as [|f1 IH]; intros f2 i d H1 H2.
  - destruct d; [apply chacha20_go_nil|cbn in H1; lia].
  - destruct d as [|x d]; [rewrite !chacha20_go_nil; reflexivity|].
    rewrite chacha20_go_cons by discriminate.
    set (Z0 := zip_with bxor (firstn 64 (x :: d)) (chacha20_block k (as_u32 i) n)).
    set (R := chacha20_go k n f1 (i + 1) (skipn 64 (x :: d))).
    assert (HZ : length Z0 = Nat.min (length (x :: d)) 64).
    { unfold Z0. rewrite length_zip_with, length_firstn, length_chacha20_block. lia. }
    assert (Hsplit : firstn 64 (Z0 ++ R) = Z0 /\ skipn 64 (Z0 ++ R) = R).
    { destruct (Nat.le_gt_cases 64 (length (x :: d))) as [Hge|Hlt].
      - rewrite firstn_app, skipn_app, firstn_all2, skipn_all2 by lia.
        replace (64 - length Z0)%nat with 0%nat by lia.
        rewrite app_nil_r. split; reflexivity.
      - assert (HR : R = []).
        { unfold R. rewrite (skipn_all2 (x :: d)) by lia. apply chacha20_go_nil. }
        rewrite HR, app_nil_r, firstn_all2, skipn_all2 by lia. split; reflexivity. }
    destruct f2 as [|f2]; [cbn in H2; lia|].
    rewrite chacha20_go_cons.
    2:{ intros E. apply (f_equal (@length byte)) in E.
        rewrite length_app in E. cbn [length] in E, HZ. lia. }
    destruct Hsplit as [-> ->]. unfold Z0, R.
    rewrite zip_with_bxor_involutive
      by (rewrite length_firstn, length_chacha20_block; lia).
    rewrite IH by (rewrite length_skipn; cbn [length] in *; lia).
    apply firstn_skipn.
Qed.

End ChaCha.

(* ------------------------------------------------------------------ *)
(** * Documents: lookups after inserts and merges *)

Lemma doc_get_insert (k k' : string) (v : Value) (d : Document) :
  doc_get k' (doc_insert k v d) = if String.eqb k' k then Some v else doc_get k' d.
Proof.
  induction d as [|[k0 v0] d IH]; cbn [doc_insert doc_get]; [reflexivity|].
  destruct (String.eqb_spec k k0) as [->|Hne]; cbn [doc_get].
  - destruct (String.eqb k' k0); reflexivity.
  - rewrite IH. destruct (String.eqb_spec k' k0) as [->|]; [|reflexivity].
    apply String.eqb_neq in Hne. rewrite String.eqb_sym, Hne. reflexivity.
Qed.

Lemma doc_get_notin (k : string) (d : Document) :
  k ∉ map fst d -> doc_get k d = None.
Proof.
  induction d as [|[k0 v0] d IH]; cbn [doc_get map fst]; intros Hk; [reflexivity|].
  destruct (String.eqb_spec k k0) as [->|]; [exfalso; apply Hk; left|].
  apply IH. intros Hin. apply Hk. right. exact Hin.
Qed.

Lemma merge_updates_cons (k0 : string) (v0 : Value) (ups doc : Document) :
  Db.merge_updates ((k0, v0) :: ups) doc =
  Db.merge_updates ups
    (if negb (String.eqb k0 "id") && negb (String.eqb k0 "created")
     then doc_insert k0 v0 doc else doc).
Proof. reflexivity. Qed.

Lemma doc_get_merge (ups doc : Document) (k : string) :
  NoDup (map fst ups) ->
  doc_get k (Db.merge_updates ups doc) =
  if String.eqb k "id" || String.eqb k "created" then doc_get k doc
  else match doc_get k ups with Some v => Some v | None => doc_get k doc end.
Proof.
  revert doc. induction ups as [|[k0 v0] ups IH]; intros doc Hnd.
  - cbn. destruct (_ || _); reflexivity.
  - cbn [map fst] in Hnd. inversion Hnd as [|? ? Hk0 Hnd']; subst.
    rewrite merge_updates_cons, IH by exact Hnd'. cbn [doc_get].
    destruct (String.eqb_spec k k0) as [->|Hne].
    + rewrite (doc_get_notin k0 ups Hk0).
      destruct (String.eqb k0 "id") eqn:E1; destruct (String.eqb k0 "created") eqn:E2;
        cbn [negb andb orb]; rewrite ?doc_get_insert, ?String.eqb_refl; reflexivity.
    + assert (Hd : doc_get k (if negb (String.eqb k0 "id") && negb (String.eqb k0 "created")
                              then doc_insert k0 v0 doc else doc) = doc_get k doc).
      { destruct (_ && _); [|reflexivity].
        rewrite doc_get_insert. apply String.eqb_neq in Hne. rewrite Hne. reflexivity. }
      rewrite Hd. reflexivity.
Qed.

(* ------------------------------------------------------------------ *)
(** * Random ids *)

Lemma length_random_bytes (len : nat) (src : list byte) :
  length (Crypto.random_bytes len src) = len.
Proof.
  unfold Crypto.random_bytes. rewrite length_app, length_firstn, repeat_length. lia.
Qed.

Lemma hex_digit_lower (d : Z) : (0 <= d < 16)%Z -> Crypto.is_lower_hex (Crypto.hex_digit d) = true.
Proof.
  intros Hd. unfold Crypto.hex_digit, Crypto.is_lower_hex.
  destruct (Z.ltb_spec d 10); rewrite b2z_z2b, Z.mod_small by lia.
  - apply orb_true_intro. left. apply andb_true_intro. split; apply Z.leb_le; lia.
  - apply orb_true_intro. right. apply andb_true_intro. split; apply Z.leb_le; lia.
Qed.

Lemma hex_encode_bytes (bs : list byte) :
  length (String.list_byte_of_string (Crypto.hex_encode bs)) = (2 * length bs)%nat /\
  Forall (fun b => Crypto.is_lower_hex b = true)
         (String.list_byte_of_string (Crypto.hex_encode bs)).
Proof.
  unfold Crypto.hex_encode. rewrite String.list_byte_of_string_of_list_byte.
  induction bs as [|b bs [IHl IHf]]; [split; [reflexivity | apply List.Forall_nil]|].
  cbn [map concat]. split.
  - cbn [app length]. rewrite IHl. lia.
  - pose proof (b2z_range b) as Hb.
    apply List.Forall_cons; [apply hex_digit_lower; split;
      [apply Z.div_pos | apply Z.div_lt_upper_bound]; lia|].
    apply List.Forall_cons; [apply hex_digit_lower; apply Z.mod_pos_bound; lia|].
    exact IHf.
Qed.

(* ------------------------------------------------------------------ *)
(** * Key sets of the two maps *)

Section Keys.
Import Db.

Lemma dom_cci_collections (n : string) (fl : list (string * string)) (db : Database) :
  dom (collections (create_collection_internal n fl db)) = {[n]} ∪ dom (collections db).
Proof. apply dom_insert_L. Qed.

Lemma dom_cci_schemas (n : string) (fl : list (string * string)) (db : Database) :
  dom (schemas (create_collection_internal n fl db)) = {[n]} ∪ dom (schemas db).
Proof. apply dom_insert_L. Qed.

Lemma keys_agree_sub (db : Database) : keys_agree db -> keys_sub db.
Proof. intros [H _]. unfold keys_sub. rewrite H. reflexivity. Qed.

Lemma new_keys (key : list byte) : keys_agree (new key).
Proof.
  unfold keys_agree, new. cbv zeta.
  rewrite !dom_cci_collections, !dom_cci_schemas. cbn [collections schemas].
  rewrite !dom_empty_L. split; [reflexivity|set_solver].
Qed.

(** Steps that only rewrite the contents of an existing collection. *)
Lemma dom_set_existing (db : Database) (c : string) (col col' : Collection) :
  collections db !! c = Some col ->
  dom (collections (set_collections (<[c := col']> (collections db)) db))
  = dom (collections db) /\
  schemas (set_collections (<[c := col']> (collections db)) db) = schemas db.
Proof.
  intros H. split; [|reflexivity]. cbn [collections set_collections].
  apply dom_insert_lookup_L. rewrite H. eexists; reflexivity.
Qed.

Lemma insert_keys (c : string) (doc : Document) (rnd : list byte) (t1 t2 : Z) (db : Database) :
  dom (collections (insert c doc rnd t1 t2 db).1.2) = dom (collections db) /\
  schemas (insert c doc rnd t1 t2 db).1.2 = schemas db.
Proof.
  unfold insert. destruct (collections db !! c) as [col|] eqn:E; [|split; reflexivity].
  cbn [fst snd]. apply (dom_set_existing db c col), E.
Qed.

Lemma update_keys (c id : string) (ups : Document) (t : Z) (db : Database) :
  dom (collections (update c id ups t db).1.2) = dom (collections db) /\
  schemas (update c id ups t db).1.2 = schemas db.
Proof.
  unfold update. destruct (collections db !! c) as [col|] eqn:E; [|split; reflexivity].
  destruct (col !! id); [|split; reflexivity].
  cbn [fst snd]. apply (dom_set_existing db c col), E.
Qed.

Lemma delete_keys (c id : string) (db : Database) :
  dom (collections (delete c id db).1.2) = dom (collections db) /\
  schemas (delete c id db).1.2 = schemas db.
Proof.
  unfold delete. destruct (collections db !! c) as [col|] eqn:E; [|split; reflexivity].
  destruct (col !! id); [|split; reflexivity].
  cbn [fst snd]. apply (dom_set_existing db c col), E.
Qed.

Lemma starts_with_underscore_settings (name : string) :
  starts_with_underscore name = false -> name <> "_settings".
Proof. intros H ->. discriminate H. Qed.

Lemma delete_collection_keys (name : string) (db : Database) :
  (keys_sub db -> keys_sub (delete_collection name db).1.2) /\
  (keys_agree db -> keys_agree (delete_collection name db).1.2).
Proof.
  unfold delete_collection. destruct (starts_with_underscore name) eqn:E;
    [split; auto|].
  apply starts_with_underscore_settings in E.
  unfold keys_sub, keys_agree. cbn [fst snd collections schemas].
  rewrite !dom_delete_L. split.
  - intros H. set_solver.
  - intros [H1 H2]. rewrite H1. split; [reflexivity|set_solver].
Qed.

Lemma fold_apply_schema_keys (ss : list (string * Schema)) (db : Database) :
  dom (collections (fold_left apply_schema ss db))
    = dom (collections db) ∪ list_to_set (map fst ss) /\
  dom (schemas (fold_left apply_schema ss db))
    = dom (schemas db) ∪ list_to_set (map fst ss).
Proof.
  revert db. induction ss as [|e ss IH]; intros db.
  - cbn. split; set_solver.
  - cbn [fold_left map list_to_set]. destruct (IH (apply_schema db e)) as [H1 H2].
    rewrite H1, H2. unfold apply_schema. cbn [collections schemas].
    rewrite !dom_insert_L. split; set_solver.
Qed.

Lemma fold_apply_collection_keys (cs : list (string * list (string * Document)))
    (db : Database) :
  dom (collections (fold_left apply_collection cs db))
    = dom (collections db) ∪ list_to_set (map fst cs) /\
  schemas (fold_left apply_collection cs db) = schemas db.
Proof.
  revert db. induction cs as [|e cs IH]; intros db.
  - cbn. split; [set_solver|reflexivity].
  - cbn [fold_left map list_to_set]. destruct (IH (apply_collection db e)) as [H1 H2].
    rewrite H1, H2. unfold apply_collection. cbn [collections schemas set_collections].
    rewrite !dom_insert_L. split; [set_solver|reflexivity].
Qed.

Lemma deserialize_keys (data : list byte) (db db' : Database) :
  deserialize data db = Some db' ->
  (keys_sub db -> keys_sub db') /\
  (image_closed data db -> keys_agree db -> keys_agree db').
Proof.
  unfold deserialize, image_closed. destruct (parse_image data) as [[ss cs]|]; [|discriminate].
  intros E. injection E as <-.
  destruct (fold_apply_collection_keys cs (fold_left apply_schema ss db)) as [Hc Hs].
  destruct (fold_apply_schema_keys ss db) as [Hc' Hs'].
  unfold keys_sub, keys_agree. rewrite Hc, Hs, Hc', Hs'. split.
  - intros H. set_solver.
  - intros Hcl [H1 H2].
    assert (Hin : list_to_set (C := gset string) (map fst cs)
                  ⊆ dom (schemas db) ∪ list_to_set (map fst ss)).
    { intros x Hx. apply elem_of_list_to_set, list_elem_of_In, in_map_iff in Hx.
      destruct Hx as [e [<- He]].
      destruct (proj1 (List.Forall_forall _ _) Hcl e He) as [Hd|Hd].
      - set_solver.
      - apply elem_of_union_r, elem_of_list_to_set, list_elem_of_In, Hd. }
    rewrite H1. split; [set_solver|set_solver].
Qed.

Lemma migrate_keys (rnd : list byte) (db : Database) :
  (keys_sub db -> keys_sub (migrate_system_defaults rnd db)) /\
  (keys_agree db -> keys_agree (migrate_system_defaults rnd db)).
Proof.
  unfold migrate_system_defaults, ensure_settings_defaults, ensure_internal_collections.
  unfold keys_sub, keys_agree.
  destruct (schemas db !! "_ports"); cbn [collections schemas set_collections];
    rewrite ?dom_insert_L; split.
  - intros H. set_solver.
  - intros [H1 H2]. rewrite H1. split; set_solver.
  - intros H. set_solver.
  - intros [H1 H2]. rewrite H1. split; set_solver.
Qed.

Lemma load_keys (rnd : list byte) (file : option (list byte)) (db db' : Database) :
  load rnd file db = Some db' ->
  (keys_sub db -> keys_sub db') /\
  (closed_step (load_label db file) db -> keys_agree db -> keys_agree db').
Proof.
  unfold load, load_label. destruct file as [fd|];
    [|intros E; injection E as <-; split; auto].
  destruct (header_ok fd); [|intros E; injection E as <-; split; auto].
  destruct (deserialize (decrypt_image db fd) db) as [db1|] eqn:E; [|discriminate].
  intros E'. injection E' as <-.
  destruct (deserialize_keys _ _ _ E) as [Hs Ha].
  destruct (migrate_keys rnd db1) as [Ms Ma]. split.
  - intros H. apply Ms, Hs, H.
  - intros Hc H. apply Ma, Ha; assumption.
Qed.

Lemma step_keys (l : label) (db db' : Database) :
  step l db db' ->
  (keys_sub db -> keys_sub db') /\ (closed_step l db -> keys_agree db -> keys_agree db').
Proof.
  intros Hst. destruct Hst as [name flds db|c doc rnd t1 t2 db|c id ups t db|c id db
                              |name db|data db db' Hd|rnd db|rnd file db db' Hl].
  - unfold keys_sub, keys_agree. cbn [fst create_collection].
    rewrite dom_cci_collections, dom_cci_schemas. split.
    + intros H. set_solver.
    + intros _ [H1 H2]. rewrite H1. split; set_solver.
  - destruct (insert_keys c doc rnd t1 t2 db) as [H1 H2].
    unfold keys_sub, keys_agree. rewrite H1, H2. auto.
  - destruct (update_keys c id ups t db) as [H1 H2].
    unfold keys_sub, keys_agree. rewrite H1, H2. auto.
  - destruct (delete_keys c id db) as [H1 H2].
    unfold keys_sub, keys_agree. rewrite H1, H2. auto.
  - destruct (delete_collection_keys name db). auto.
  - exact (deserialize_keys _ _ _ Hd).
  - destruct (migrate_keys rnd db). auto.
  - exact (load_keys _ _ _ _ Hl).
Qed.

End Keys.

(* ------------------------------------------------------------------ *)
(** * Hex, passwords and digests *)

Lemma lower_hex_not_cont (b : byte) :
  Crypto.is_lower_hex b = true -> Crypto.is_cont b = false.
Proof. destruct b; vm_compute; congruence. Qed.

Lemma lower_hex_not_colon (b : byte) :
  Crypto.is_lower_hex b = true -> Byte.eqb b Byte.x3a = false.
Proof. destruct b; vm_compute; congruence. Qed.

Lemma hex_pair_byte (b : byte) :
  Crypto.from_str_radix16 (Crypto.hex_digit (b2z b / 16)) (Crypto.hex_digit (b2z b mod 16))
  = Some b.
Proof. destruct b; vm_compute; reflexivity. Qed.

Lemma hex_encode_bytes_eq (bs : list byte) :
  String.list_byte_of_string (Crypto.hex_encode bs)
  = concat (map (fun b => [Crypto.hex_digit (b2z b / 16); Crypto.hex_digit (b2z b mod 16)]) bs).
Proof. apply String.list_byte_of_string_of_list_byte. Qed.

Lemma hex_decode_go_pairs (bs : list byte) :
  Crypto.hex_decode_go
    (concat (map (fun b => [Crypto.hex_digit (b2z b / 16); Crypto.hex_digit (b2z b mod 16)]) bs))
  = Crypto.Ok (Some bs).
Proof.
  induction bs as [|b bs IH]; [reflexivity|].
  cbn [map concat app Crypto.hex_decode_go].
  rewrite hex_pair_byte, IH.
  destruct bs as [|b' bs']; [reflexivity|].
  cbn [map concat app]. rewrite lower_hex_not_cont; [reflexivity|].
  apply hex_digit_lower. pose proof (b2z_range b').
  split; [apply Z.div_pos | apply Z.div_lt_upper_bound]; lia.
Qed.

Lemma list_byte_of_string_append (a b : string) :
  String.list_byte_of_string (String.append a b)
  = String.list_byte_of_string a ++ String.list_byte_of_string b.
Proof.
  induction a as [|c a IH]; [reflexivity|].
  change (String.append (String.String c a) b) with (String.String c (String.append a b)).
  unfold String.list_byte_of_string in *. cbn [String.list_ascii_of_string map app].
  f_equal. exact IH.
Qed.

Lemma split_colon_nocolon (l : list byte) :
  Forall (fun b => Byte.eqb b Byte.x3a = false) l -> Crypto.split_colon l = [l].
Proof.
  induction 1 as [|b l Hb Hl IH]; [reflexivity|].
  cbn [Crypto.split_colon]. rewrite Hb, IH. reflexivity.
Qed.

Lemma split_colon_app (l r : list byte) :
  Forall (fun b => Byte.eqb b Byte.x3a = false) l ->
  Crypto.split_colon (l ++ Byte.x3a :: r) = l :: Crypto.split_colon r.
Proof.
  induction 1 as [|b l Hb Hl IH]; [reflexivity|].
  cbn [app Crypto.split_colon]. rewrite Hb. cbn [app] in IH. rewrite IH. reflexivity.
Qed.

Lemma length_split_colon (l : list byte) :
  length (Crypto.split_colon l) = S (length (List.filter (fun b => Byte.eqb b Byte.x3a) l)).
Proof.
  induction l as [|b l IH]; [reflexivity|].
  cbn [Crypto.split_colon List.filter]. destruct (Byte.eqb b Byte.x3a).
  - cbn [length]. rewrite IH. reflexivity.
  - destruct (Crypto.split_colon l) as [|p ps]; [discriminate IH|]. exact IH.
Qed.

Lemma hex_encode_nocolon (bs : list byte) :
  Forall (fun b => Byte.eqb b Byte.x3a = false) (String.list_byte_of_string (Crypto.hex_encode bs)).
Proof.
  destruct (hex_encode_bytes bs) as [_ H].
  eapply List.Forall_impl; [|exact H]. intros b. apply lower_hex_not_colon.
Qed.

(** [stored] = hex(salt) ":" hex(h). *)

Lemma verify_password_hex (pw : string) (salt h : list byte) :
  Crypto.verify_password pw
    (String.append (Crypto.hex_encode salt) (String.append ":" (Crypto.hex_encode h)))
  = Crypto.Ok (if List.list_eq_dec Byte.byte_eq_dec
                    (Crypto.pbkdf2 (String.list_byte_of_string pw) salt 100000) h
               then true else false).
Proof.
  unfold Crypto.verify_password.
  rewrite !list_byte_of_string_append.
  replace (String.list_byte_of_string ":") with [Byte.x3a] by reflexivity.
  cbn [app].
  rewrite split_colon_app by apply hex_encode_nocolon.
  rewrite split_colon_nocolon by apply hex_encode_nocolon.
  unfold Crypto.hex_decode. rewrite !hex_encode_bytes_eq, !hex_decode_go_pairs.
  reflexivity.
Qed.

Lemma length_round (st : list Z) (kw : Z * Z) : length (Crypto.round st kw) = length st.
Proof.
  destruct st as [|a [|b [|c [|d [|e [|f [|g [|hh [|x st]]]]]]]]]; reflexivity.
Qed.

Lemma length_fold_round (l : list (Z * Z)) (st : list Z) :
  length (fold_left Crypto.round l st) = length st.
Proof.
  revert st. induction l as [|kw l IH]; intros st; [reflexivity|].
  cbn [fold_left]. rewrite IH. apply length_round.
Qed.

Lemma length_compress (h : list Z) (chunk : list byte) :
  length (Crypto.compress h chunk) = length h.
Proof.
  unfold Crypto.compress. cbv zeta. rewrite length_zip_with, length_fold_round. lia.
Qed.

Lemma length_fold_compress (l : list (list byte)) (h : list Z) :
  length (fold_left Crypto.compress l h) = length h.
Proof.
  revert h. induction l as [|c l IH]; intros h; [reflexivity|].
  cbn [fold_left]. rewrite IH. apply length_compress.
Qed.

Lemma length_concat_be4 (l : list Z) :
  length (concat (map (to_be_bytes 4) l)) = (4 * length l)%nat.
Proof.
  induction l as [|x l IH]; [reflexivity|].
  cbn [map concat length]. rewrite length_app, IH.
  unfold to_be_bytes. rewrite length_rev, length_to_le_bytes. lia.
Qed.

Lemma length_sha256 (data : list byte) : length (Crypto.sha256 data) = 32%nat.
Proof.
  unfold Crypto.sha256. cbv zeta.
  rewrite length_concat_be4, length_fold_compress. reflexivity.
Qed.

Lemma length_hmac_sha256 (key data : list byte) : length (Crypto.hmac_sha256 key data) = 32%nat.
Proof. unfold Crypto.hmac_sha256. cbv zeta. apply length_sha256. Qed.

Lemma length_pbkdf2 (pw salt : list byte) (it : Z) : length (Crypto.pbkdf2 pw salt it) = 32%nat.
Proof.
  unfold Crypto.pbkdf2. cbv zeta.
  set (u0 := Crypto.hmac_sha256 pw (salt ++ to_be_bytes 4 1)).
  assert (H0 : length u0 = 32%nat) by apply length_hmac_sha256.
  generalize (Z.to_nat (it - 1)) as n. intros n.
  cut (length (fst (Nat.iter n (fun '(u, result) =>
          let u := Crypto.hmac_sha256 pw u in (u, zip_with bxor result u)) (u0, u0))) = 32%nat /\
       length (snd (Nat.iter n (fun '(u, result) =>
          let u := Crypto.hmac_sha256 pw u in (u, zip_with bxor result u)) (u0, u0))) = 32%nat);
    [intros [_ H]; exact H|].
  induction n as [|n [IH1 IH2]]; [split; exact H0|].
  rewrite Nat.iter_succ.
  destruct (Nat.iter n _ (u0, u0)) as [u r]. cbn [fst snd] in *.
  rewrite length_zip_with, length_hmac_sha256, IH2. split; reflexivity.
Qed.

Lemma plus_pair_byte (b : byte) :
  (b2z b < 16)%Z -> Crypto.from_str_radix16 Byte.x2b (Crypto.hex_digit (b2z b)) = Some b.
Proof. destruct b; vm_compute; try reflexivity; intros H; discriminate H. Qed.

Lemma hex_pair_format (salt h : list byte) :
  length salt = 16%nat -> length h = 32%nat ->
  let s := String.list_byte_of_string
             (String.append (Crypto.hex_encode salt) (String.append ":" (Crypto.hex_encode h))) in
  length s = 97%nat /\ nth 32 s Byte.x00 = Byte.x3a /\
  Forall (fun b => Crypto.is_lower_hex b = true) (firstn 32 s ++ skipn 33 s).
Proof.
  intros Hs Hh. cbv zeta.
  rewrite !list_byte_of_string_append.
  replace (String.list_byte_of_string ":") with [Byte.x3a] by reflexivity.
  destruct (hex_encode_bytes salt) as [Ls Fs]. destruct (hex_encode_bytes h) as [Lh Fh].
  rewrite Hs in Ls. rewrite Hh in Lh.
  generalize dependent (String.list_byte_of_string (Crypto.hex_encode salt)). intros a La Fa.
  generalize dependent (String.list_byte_of_string (Crypto.hex_encode h)). intros b Lb Fb.
  split; [rewrite !length_app; cbn [length]; lia|].
  split.
  - rewrite app_nth2 by lia. rewrite La. reflexivity.
  - replace (drop 33 (a ++ [Byte.x3a] ++ b)) with b.
    2:{ rewrite app_assoc. replace 33%nat with (length (a ++ [Byte.x3a])) by (rewrite length_app; cbn [length]; lia).
        rewrite drop_app_length. reflexivity. }
    replace 32%nat with (length a) by lia. rewrite take_app_length. apply Forall_app. split; assumption.
Qed.

(* ------------------------------------------------------------------ *)
(** * Reading back the serialized image *)

Lemma read_many_back {A} (rd : nat -> option (A * nat)) (w : A -> list byte)
    (data : list byte) (l : list A) :
  Forall (fun x => forall p r, skipn p data = w x ++ r ->
                   rd p = Some (x, (p + length (w x))%nat)) l ->
  forall pos rest, skipn pos data = concat (map w l) ++ rest ->
  read_many rd (length l) pos = Some (l, (pos + length (concat (map w l)))%nat).
Proof.
  induction 1 as [|x l Hx Hl IH]; intros pos rest H; cbn [length read_many map concat] in *.
  - rewrite Nat.add_0_r. reflexivity.
  - rewrite <- app_assoc in H. rewrite (Hx _ _ H).
    destruct (skipn_app_split _ _ _ _ H) as (_ & _ & HS).
    rewrite (IH _ _ HS). rewrite length_app. do 2 f_equal. lia.
Qed.

Lemma str_ok_spec (s : string) :
  str_ok s = true -> utf8_valid s = true /\ (Z.of_nat (str_len s) < 2 ^ 32)%Z.
Proof. unfold str_ok. intros H. apply andb_prop in H as [H1 H2]. split; [exact H1|lia]. Qed.

Lemma u32_small (n : nat) : (Z.of_nat n < 2 ^ 32)%Z -> (as_u32 (Z.of_nat n) mod 2 ^ 32)%Z = Z.of_nat n.
Proof. intros H. unfold as_u32. rewrite Zmod_mod. apply Z.mod_small. lia. Qed.

Lemma read_string_ok (data r : list byte) (p : nat) (s : string) :
  str_ok s = true -> skipn p data = write_string s ++ r ->
  read_string data p = Some (s, (p + length (write_string s))%nat).
Proof. intros Hs H. apply str_ok_spec in Hs as [H1 H2]. exact (read_string_bytes _ _ _ _ H1 H2 H). Qed.

Lemma read_field_back (data : list byte) (f : string * string) :
  str_ok f.1 = true -> str_ok f.2 = true ->
  forall p r, skipn p data = Db.write_field f ++ r ->
  Db.read_field data p = Some (f, (p + length (Db.write_field f))%nat).
Proof.
  destruct f as [a b]. cbn [fst snd]. intros Ha Hb p r H.
  unfold Db.write_field in *. cbn [fst snd] in H |- *. rewrite <- app_assoc in H.
  unfold Db.read_field. rewrite (read_string_ok _ _ _ _ Ha H).
  destruct (skipn_app_split _ _ _ _ H) as (_ & _ & HS).
  rewrite (read_string_ok _ _ _ _ Hb HS). rewrite length_app. do 2 f_equal. lia.
Qed.

Lemma read_schema_back (data : list byte) (e : string * Db.Schema) :
  str_ok e.1 = true -> (Z.of_nat (length (Db.fields e.2)) < 2 ^ 32)%Z ->
  Forall (fun f => str_ok f.1 = true /\ str_ok f.2 = true) (Db.fields e.2) ->
  forall p r, skipn p data = Db.write_schema e ++ r ->
  Db.read_schema data p = Some (e, (p + length (Db.write_schema e))%nat).
Proof.
  destruct e as [name [flds]]. cbn [fst snd Db.fields]. intros Hn Hl Hf p r H.
  unfold Db.write_schema, u32_bytes in H. cbn [fst snd Db.fields] in H.
  rewrite <- !app_assoc in H.
  unfold Db.read_schema. rewrite (read_string_ok _ _ _ _ Hn H).
  destruct (skipn_app_split _ _ _ _ H) as (_ & _ & HS).
  rewrite (read_u32_bytes _ _ _ _ HS), u32_small, Nat2Z.id by exact Hl.
  destruct (skipn_app_split _ _ _ _ HS) as (_ & _ & HS2).
  rewrite length_to_le_bytes in HS2.
  rewrite (read_many_back (Db.read_field data) Db.write_field data flds) with (rest := r).
  - unfold Db.write_schema, u32_bytes. cbn [fst snd Db.fields].
    rewrite !length_app, length_to_le_bytes. do 2 f_equal. lia.
  - eapply List.Forall_impl; [|exact Hf]. intros f [H1 H2]. apply read_field_back; assumption.
  - exact HS2.
Qed.

Lemma read_entry_back (data : list byte) (e : string * Document) :
  str_ok e.1 = true -> doc_wf e.2 = true -> doc_fits_u32 e.2 = true ->
  forall p r, skipn p data = Db.write_entry e ++ r ->
  Db.read_entry data p = Some (e, (p + length (Db.write_entry e))%nat).
Proof.
  destruct e as [id d]. cbn [fst snd]. intros Hi Hw Hf p r H.
  unfold Db.write_entry in H. cbn [fst snd] in H. rewrite <- app_assoc in H.
  unfold Db.read_entry. rewrite (read_string_ok _ _ _ _ Hi H).
  destruct (skipn_app_split _ _ _ _ H) as (_ & _ & HS).
  assert (HL : (length (write_doc d) <= S (length data))%nat).
  { pose proof (f_equal (@length byte) HS) as E.
    rewrite length_skipn, length_app in E. lia. }
  unfold read_doc.
  assert (HF : Forall (fun kv => reads_back (snd kv)) d).
  { apply Forall_forall. intros kv _. apply read_value_back. }
  rewrite (read_doc_with_back (S (length data)) data d HF Hw Hf HL _ r HS).
  unfold Db.write_entry. cbn [fst snd]. rewrite length_app. do 2 f_equal. lia.
Qed.

Lemma length_concat_collections (l : list (string * Db.Collection)) :
  (length l <= length (concat (map Db.write_collection l)))%nat.
Proof.
  induction l as [|e l IH]; [cbn; lia|].
  cbn [map concat length]. rewrite length_app.
  assert (4 <= length (Db.write_collection e))%nat.
  { unfold Db.write_collection, write_string, u32_bytes.
    rewrite !length_app, !length_to_le_bytes. lia. }
  lia.
Qed.

Lemma read_collections_back (data : list byte) (l : list (string * Db.Collection)) :
  Forall (fun e => str_ok e.1 = true /\ (Z.of_nat (size e.2) < 2 ^ 32)%Z /\
             Forall (fun x => str_ok x.1 = true /\ doc_wf x.2 = true /\ doc_fits_u32 x.2 = true)
                    (map_to_list e.2)) l ->
  forall f pos, skipn pos data = concat (map Db.write_collection l) -> (length l <= f)%nat ->
  Db.read_collections f data pos = Some (map (fun e => (e.1, map_to_list e.2)) l).
Proof.
  induction 1 as [|[name col] l [Hn [Hs Hd]] Hl IH]; intros f pos H Hf.
  - cbn in H. pose proof (f_equal (@length byte) H) as E. rewrite length_skipn in E.
    destruct f as [|f]; [reflexivity|]. cbn [Db.read_collections].
    replace (pos <? length data)%nat with false by (symmetry; apply Nat.ltb_ge; cbn in E; lia).
    reflexivity.
  - cbn [fst snd] in Hn, Hs, Hd.
    destruct f as [|f]; [cbn in Hf; lia|].
    cbn [map concat] in H. unfold Db.write_collection in H. cbn [fst snd] in H.
    rewrite <- !app_assoc in H.
    assert (Hlt : (pos < length data)%nat).
    { pose proof (f_equal (@length byte) H) as E. rewrite length_skipn in E.
      unfold write_string, u32_bytes in E. rewrite !length_app, length_to_le_bytes in E. lia. }
    cbn [Db.read_collections]. rewrite (proj2 (Nat.ltb_lt _ _) Hlt).
    rewrite (read_string_ok _ _ _ _ Hn H).
    destruct (skipn_app_split _ _ _ _ H) as (_ & _ & HS).
    unfold u32_bytes in HS.
    rewrite (read_u32_bytes _ _ _ _ HS), u32_small, Nat2Z.id by exact Hs.
    destruct (skipn_app_split _ _ _ _ HS) as (_ & _ & HS2).
    rewrite length_to_le_bytes in HS2.
    rewrite <- length_map_to_list.
    rewrite (read_many_back (Db.read_entry data) Db.write_entry data (map_to_list col))
      with (rest := concat (map Db.write_collection l)).
    + destruct (skipn_app_split _ _ _ _ HS2) as (_ & _ & HS3).
      rewrite (IH f _ HS3) by (cbn in Hf; lia). reflexivity.
    + eapply List.Forall_impl; [|exact Hd]. intros x (H1 & H2 & H3). apply read_entry_back; assumption.
    + exact HS2.
Qed.

Lemma forallb_map_to_list {V} (P : string * V -> bool) (m : gmap string V) :
  forallb P (map_to_list m) = true -> Forall (fun e => P e = true) (map_to_list m).
Proof. intros H. apply List.Forall_forall. intros x Hx. exact (proj1 (forallb_forall _ _) H x Hx). Qed.

Lemma db_codec_ok_spec (db : Db.Database) :
  db_codec_ok db = true ->
  (Z.of_nat (size (Db.schemas db)) < 2 ^ 32)%Z /\
  Forall (fun e => str_ok e.1 = true /\ (Z.of_nat (length (Db.fields e.2)) < 2 ^ 32)%Z /\
                   Forall (fun f => str_ok f.1 = true /\ str_ok f.2 = true) (Db.fields e.2))
         (map_to_list (Db.schemas db)) /\
  Forall (fun e => str_ok e.1 = true /\ (Z.of_nat (size e.2) < 2 ^ 32)%Z /\
             Forall (fun x => str_ok x.1 = true /\ doc_wf x.2 = true /\ doc_fits_u32 x.2 = true)
                    (map_to_list e.2)) (map_to_list (Db.collections db)).
Proof.
  unfold db_codec_ok. intros H.
  apply andb_prop in H as [H H3]. apply andb_prop in H as [H1 H2].
  apply Z.ltb_lt in H1. split; [exact H1|]. split.
  - apply forallb_map_to_list in H2. eapply List.Forall_impl; [|exact H2].
    intros [name sc] E. cbn beta iota in E.
    apply andb_prop in E as [E E3]. apply andb_prop in E as [E1 E2]. apply Z.ltb_lt in E2.
    cbn [fst snd]. split; [exact E1|]. split; [exact E2|].
    apply List.Forall_forall. intros [f t] Hf.
    pose proof (proj1 (forallb_forall _ _) E3 _ Hf) as F. cbn beta iota in F.
    apply andb_prop in F as [F1 F2]. split; assumption.
  - apply forallb_map_to_list in H3. eapply List.Forall_impl; [|exact H3].
    intros [name col] E. cbn beta iota in E.
    apply andb_prop in E as [E E3]. apply andb_prop in E as [E1 E2]. apply Z.ltb_lt in E2.
    cbn [fst snd]. split; [exact E1|]. split; [exact E2|].
    apply List.Forall_forall. intros [id d] Hd.
    pose proof (proj1 (forallb_forall _ _) E3 _ Hd) as F. cbn beta iota in F.
    apply andb_prop in F as [F F3]. apply andb_prop in F as [F1 F2].
    split; [exact F1|]. split; assumption.
Qed.

Lemma parse_image_serialize (db : Db.Database) :
  db_codec_ok db = true ->
  Db.parse_image (Db.serialize db) =
  Some (map_to_list (Db.schemas db),
        map (fun e => (e.1, map_to_list e.2)) (map_to_list (Db.collections db))).
Proof.
  intros Hok. destruct (db_codec_ok_spec db Hok) as (Hs & HS & HC).
  unfold Db.parse_image.
  set (data := Db.serialize db).
  assert (H0 : skipn 0 data = to_le_bytes 4 (as_u32 (Z.of_nat (size (Db.schemas db)))) ++
               (concat (map Db.write_schema (map_to_list (Db.schemas db))) ++
                concat (map Db.write_collection (map_to_list (Db.collections db))))).
  { reflexivity. }
  rewrite (read_u32_bytes _ _ _ _ H0), u32_small, Nat2Z.id by exact Hs.
  destruct (skipn_app_split _ _ _ _ H0) as (_ & _ & HS1). rewrite length_to_le_bytes in HS1.
  rewrite <- length_map_to_list.
  rewrite (read_many_back (Db.read_schema data) Db.write_schema data (map_to_list (Db.schemas db)))
    with (rest := concat (map Db.write_collection (map_to_list (Db.collections db)))).
  - destruct (skipn_app_split _ _ _ _ HS1) as (_ & _ & HS2).
    rewrite (read_collections_back data _ HC (length data) _ HS2); [reflexivity|].
    pose proof (length_concat_collections (map_to_list (Db.collections db))).
    pose proof (f_equal (@length byte) HS2) as E. rewrite length_skipn in E. lia.
  - eapply List.Forall_impl; [|exact HS]. intros e (H1 & H2 & H3).
    apply read_schema_back; assumption.
  - exact HS1.
Qed.

Lemma fold_insert_union {V} (l : list (string * V)) (m : gmap string V) :
  NoDup l.*1 ->
  fold_left (fun c '(k, v) => <[k := v]> c) l m = list_to_map l ∪ m.
Proof.
  revert m. induction l as [|[k v] l IH]; intros m Hnd.
  - cbn. symmetry. apply (left_id_L ∅ (∪)).
  - rewrite fmap_cons, NoDup_cons in Hnd. destruct Hnd as [Hk Hnd].
    cbn [fold_left]. rewrite IH by exact Hnd.
    rewrite list_to_map_cons. cbn [fst snd].
    rewrite <- insert_union_l, insert_union_r; [reflexivity|].
    apply not_elem_of_list_to_map_1, Hk.
Qed.

Lemma fst_prod_map_id {A B C} (f : B -> C) (l : list (A * B)) :
  (prod_map id f <$> l).*1 = l.*1.
Proof. induction l as [|[a b] l IH]; [reflexivity|]. rewrite !fmap_cons, IH. reflexivity. Qed.

Lemma fold_apply_schema_eq (l : list (string * Db.Schema)) (db : Db.Database) :
  NoDup l.*1 ->
  fold_left Db.apply_schema l db =
  Db.mkDatabase (list_to_map (prod_map id (fun _ : Db.Schema => ∅ : Db.Collection) <$> l)
                 ∪ Db.collections db)
                (list_to_map l ∪ Db.schemas db) (Db.encryption_key db).
Proof.
  revert db. induction l as [|[k sc] l IH]; intros db Hnd.
  - cbn. rewrite !(left_id_L ∅ (∪)). destruct db; reflexivity.
  - rewrite fmap_cons, NoDup_cons in Hnd. destruct Hnd as [Hk Hnd].
    cbn [fold_left]. rewrite IH by exact Hnd.
    unfold Db.apply_schema. cbn [fst snd Db.collections Db.schemas Db.encryption_key].
    rewrite fmap_cons. cbn [fst snd prod_map id].
    rewrite !list_to_map_cons. cbn [fst snd].
    rewrite <- !insert_union_l, !insert_union_r; [reflexivity| |].
    + apply not_elem_of_list_to_map_1, Hk.
    + apply not_elem_of_list_to_map_1. rewrite fst_prod_map_id. exact Hk.
Qed.

Lemma fold_apply_collection_eq (l : list (string * Db.Collection)) (db : Db.Database) :
  NoDup l.*1 ->
  (forall k c, (k, c) ∈ l -> Db.collections db !! k = Some ∅) ->
  fold_left Db.apply_collection (map (fun e => (e.1, map_to_list e.2)) l) db =
  Db.set_collections (list_to_map l ∪ Db.collections db) db.
Proof.
  revert db. induction l as [|[k c] l IH]; intros db Hnd Hempty.
  - cbn. rewrite (left_id_L ∅ (∪)). destruct db; reflexivity.
  - rewrite fmap_cons, NoDup_cons in Hnd. destruct Hnd as [Hk Hnd].
    cbn [map fold_left fst snd].
    assert (Hc : Db.apply_collection db (k, map_to_list c)
                 = Db.set_collections (<[k := c]> (Db.collections db)) db).
    { unfold Db.apply_collection. cbn [fst snd].
      rewrite (Hempty k c ltac:(left)). cbn [default].
      rewrite fold_insert_union by apply NoDup_fst_map_to_list.
      rewrite list_to_map_to_list. cbn [id]. rewrite map_union_empty. reflexivity. }
    rewrite Hc, IH.
    + cbn [Db.set_collections Db.collections Db.schemas Db.encryption_key].
      rewrite list_to_map_cons. cbn [fst snd].
      rewrite <- insert_union_l, insert_union_r; [reflexivity|].
      apply not_elem_of_list_to_map_1, Hk.
    + exact Hnd.
    + intros k' c' Hin. cbn [Db.set_collections Db.collections].
      rewrite lookup_insert_ne.
      * apply (Hempty k' c'). right. exact Hin.
      * intros ->. apply Hk. apply list_elem_of_fmap. exists (k', c'). split; [reflexivity|exact Hin].
Qed.

Lemma deserialize_serialize_eq (db db0 : Db.Database) :
  db_codec_ok db = true -> dom (Db.collections db) = dom (Db.schemas db) ->
  Db.deserialize (Db.serialize db) db0 =
  Some (Db.mkDatabase (Db.collections db ∪ Db.collections db0)
                      (Db.schemas db ∪ Db.schemas db0) (Db.encryption_key db0)).
Proof.
  intros Hok Hdom. unfold Db.deserialize. rewrite parse_image_serialize by exact Hok.
  rewrite fold_apply_schema_eq by apply NoDup_fst_map_to_list.
  rewrite <- map_to_list_fmap, !list_to_map_to_list.
  rewrite fold_apply_collection_eq.
  - rewrite list_to_map_to_list.
    unfold Db.set_collections. cbn [Db.collections Db.schemas Db.encryption_key].
    f_equal. f_equal. apply map_eq. intros i. rewrite !lookup_union, lookup_fmap.
    destruct (Db.collections db !! i) eqn:Ec; [destruct (Db.schemas db !! i), (Db.collections db0 !! i); reflexivity|].
    assert (Hs : Db.schemas db !! i = None).
    { apply not_elem_of_dom. rewrite <- Hdom. apply not_elem_of_dom. exact Ec. }
    rewrite Hs. destruct (Db.collections db0 !! i); reflexivity.
  - apply NoDup_fst_map_to_list.
  - intros k c Hin. apply elem_of_map_to_list in Hin. cbn [Db.collections].
    rewrite lookup_union, lookup_fmap.
    assert (Hs : is_Some (Db.schemas db !! k)).
    { apply elem_of_dom. rewrite <- Hdom. apply elem_of_dom. exists c. exact Hin. }
    destruct Hs as [sc Hsc]. rewrite Hsc. cbn [fmap option_fmap option_map].
    destruct (Db.collections db0 !! k); reflexivity.
Qed.

Lemma length_serialize_ge (db : Db.Database) : (4 <= length (Db.serialize db))%nat.
Proof. unfold Db.serialize, u32_bytes. rewrite length_app, length_to_le_bytes. lia. Qed.

Lemma header_ok_sync_image (rnd : list byte) (db : Db.Database) :
  Db.header_ok (Db.sync_image rnd db) = true.
Proof.
  unfold Db.header_ok, Db.sync_image. cbv zeta.
  pose proof (length_serialize_ge db).
  rewrite andb_true_r. apply negb_true_iff, Nat.ltb_ge.
  cbn [length]. rewrite length_app, length_random_bytes. unfold Crypto.chacha20.
  rewrite length_chacha20_go by lia. lia.
Qed.

Lemma decrypt_sync_image (rnd : list byte) (db db0 : Db.Database) :
  Db.encryption_key db0 = Db.encryption_key db ->
  Db.decrypt_image db0 (Db.sync_image rnd db) = Db.serialize db.
Proof.
  intros Hk. unfold Db.decrypt_image, Db.sync_image. cbv zeta. rewrite Hk.
  set (nonce := Crypto.random_bytes 12 rnd).
  assert (Hn : length nonce = 12%nat) by apply length_random_bytes.
  change (skipn 1 (Byte.x01 :: ?l)) with l.
  change (skipn 13 (Byte.x01 :: ?l)) with (skipn 12 l).
  rewrite <- Hn, take_app_length, drop_app_length.
  unfold Crypto.chacha20. rewrite length_chacha20_go by lia.
  apply chacha20_go_involutive; lia.
Qed.

(* ------------------------------------------------------------------ *)
(** * Queries over the maps *)

Lemma map_fmap_list {A B} (f : A -> B) (l : list A) : map f l = f <$> l.
Proof. induction l as [|x l IH]; [reflexivity|]. cbn. rewrite IH. reflexivity. Qed.

Lemma in_map_fst_map_to_list {V} (m : gmap string V) (k : string) :
  In k (map fst (map_to_list m)) <-> is_Some (m !! k).
Proof.
  rewrite in_map_iff. split.
  - intros [[k' v] [<- Hin]]. exists v. apply elem_of_map_to_list, list_elem_of_In, Hin.
  - intros [v Hv]. exists (k, v). split; [reflexivity|].
    apply list_elem_of_In, elem_of_map_to_list, Hv.
Qed.

Lemma NoDup_map_fst_map_to_list {V} (m : gmap string V) : NoDup (map fst (map_to_list m)).
Proof. rewrite map_fmap_list. apply NoDup_fst_map_to_list. Qed.

Lemma in_map_snd_map_to_list {V} (m : gmap string V) (v : V) :
  In v (map snd (map_to_list m)) <-> exists k, m !! k = Some v.
Proof.
  rewrite in_map_iff. split.
  - intros [[k v'] [<- Hin]]. exists k. apply elem_of_map_to_list, list_elem_of_In, Hin.
  - intros [k Hk]. exists (k, v). split; [reflexivity|].
    apply list_elem_of_In, elem_of_map_to_list, Hk.
Qed.

(* ------------------------------------------------------------------ *)
(** * System-default migration *)

Lemma doc_get_set_default (d : Document) (k0 k : string) (v0 : Value) :
  doc_get k (Db.set_default d k0 v0) =
  match doc_get k d with Some v => Some v | None => if String.eqb k k0 then Some v0 else None end.
Proof.
  unfold Db.set_default, doc_contains.
  destruct (doc_get k0 d) as [w|] eqn:E.
  - destruct (doc_get k d) eqn:Ek; [reflexivity|].
    destruct (String.eqb_spec k k0) as [->|]; [congruence|reflexivity].
  - rewrite doc_get_insert. destruct (doc_get k d) eqn:Ek.
    + destruct (String.eqb_spec k k0) as [->|]; [congruence|reflexivity].
    + reflexivity.
Qed.

Lemma doc_get_fold_set_default (l d : Document) (k : string) :
  doc_get k (fold_left (fun d '(k, v) => Db.set_default d k v) l d) =
  match doc_get k d with Some v => Some v | None => doc_get k l end.
Proof.
  revert d. induction l as [|[k0 v0] l IH]; intros d; cbn [fold_left].
  - destruct (doc_get k d); reflexivity.
  - rewrite IH, doc_get_set_default. cbn [doc_get].
    destruct (doc_get k d); [reflexivity|]. destruct (String.eqb k k0); reflexivity.
Qed.

Lemma fold_set_default_id (l d : Document) :
  Forall (fun kv => doc_contains kv.1 d = true) l ->
  fold_left (fun d '(k, v) => Db.set_default d k v) l d = d.
Proof.
  induction 1 as [|[k v] l Hk Hl IH]; [reflexivity|]. cbn [fold_left].
  unfold Db.set_default at 2. cbn [fst] in Hk. rewrite Hk. exact IH.
Qed.

Lemma doc_contains_get (k : string) (d : Document) :
  doc_contains k d = true <-> is_Some (doc_get k d).
Proof.
  unfold doc_contains. destruct (doc_get k d).
  - split; intros _; [eexists; reflexivity|reflexivity].
  - split; [discriminate|intros [? H]; discriminate].
Qed.

Lemma settings_defaults_get (k : string) (v : Value) :
  In (k, v) Db.settings_defaults -> is_Some (doc_get k Db.settings_defaults).
Proof.
  intros Hin. apply doc_contains_get.
  assert (Hall : forallb (fun kv => doc_contains kv.1 Db.settings_defaults) Db.settings_defaults = true)
    by (vm_compute; reflexivity).
  exact (proj1 (forallb_forall _ _) Hall (k, v) Hin).
Qed.

Lemma fill_defaults_contains (d : Document) (k : string) (v : Value) :
  In (k, v) Db.settings_defaults -> doc_contains k (fill_defaults d) = true.
Proof.
  intros Hin. apply doc_contains_get. unfold fill_defaults. rewrite doc_get_fold_set_default.
  destruct (doc_get k d); [eexists; reflexivity|]. exact (settings_defaults_get k v Hin).
Qed.

Lemma default_settings_doc :
  fold_left (fun d '(k, v) => doc_insert k v d) Db.settings_defaults [] = Db.settings_defaults.
Proof. vm_compute. reflexivity. Qed.

Lemma ensure_internal_frame (db : Db.Database) :
  (forall c, c <> "_ports" -> Db.collections (Db.ensure_internal_collections db) !! c = Db.collections db !! c) /\
  (forall c, c <> "_ports" -> Db.schemas (Db.ensure_internal_collections db) !! c = Db.schemas db !! c) /\
  Db.encryption_key (Db.ensure_internal_collections db) = Db.encryption_key db /\
  is_Some (Db.schemas (Db.ensure_internal_collections db) !! "_ports") /\
  (is_Some (Db.schemas db !! "_ports") -> Db.ensure_internal_collections db = db).
Proof.
  unfold Db.ensure_internal_collections.
  destruct (Db.schemas db !! "_ports") as [s|] eqn:E.
  - split; [intros; reflexivity|]. split; [intros; reflexivity|].
    split; [reflexivity|]. split; [rewrite E; eexists; reflexivity|]. intros _. reflexivity.
  - cbn [Db.collections Db.schemas Db.encryption_key].
    split; [|split; [|split; [|split]]].
    + intros c Hc. apply lookup_insert_ne. congruence.
    + intros c Hc. apply lookup_insert_ne. congruence.
    + reflexivity.
    + rewrite lookup_insert_eq. eexists; reflexivity.
    + intros [? H]; discriminate.
Qed.

Lemma ensure_settings_spec (rnd : list byte) (db : Db.Database) :
  let db' := Db.ensure_settings_defaults rnd db in
  Db.schemas db' = Db.schemas db /\ Db.encryption_key db' = Db.encryption_key db /\
  (forall c, c <> "_settings" -> Db.collections db' !! c = Db.collections db !! c) /\
  exists col', Db.collections db' !! "_settings" = Some col' /\ size col' <> 0%nat /\
    settings_filled col' /\
    match Db.collections db !! "_settings" with
    | Some col => size col <> 0%nat -> col' = fill_defaults <$> col
    | None => True
    end /\
    ((default ∅ (Db.collections db !! "_settings") = ∅) ->
       col' = {[Crypto.random_hex 12 rnd := Db.settings_defaults]}).
Proof.
  cbv zeta. unfold Db.ensure_settings_defaults, Db.set_collections.
  cbn [Db.collections Db.schemas Db.encryption_key].
  split; [reflexivity|]. split; [reflexivity|]. split.
  { intros c Hc. apply lookup_insert_ne. congruence. }
  rewrite lookup_insert_eq.
  destruct (Nat.eqb_spec (size (default ∅ (Db.collections db !! "_settings"))) 0) as [Hz|Hnz].
  - apply map_size_empty_iff in Hz. rewrite Hz, default_settings_doc.
    exists {[Crypto.random_hex 12 rnd := Db.settings_defaults]}.
    split; [rewrite insert_empty; reflexivity|].
    split; [rewrite map_size_singleton; discriminate|]. split.
    { intros id d Hd k v Hin. apply lookup_singleton_Some in Hd as [_ <-].
      apply doc_contains_get. exact (settings_defaults_get k v Hin). }
    split; [|intros _; reflexivity].
    destruct (Db.collections db !! "_settings") as [c0|]; [|exact I].
    change (default ∅ (Some c0)) with c0 in Hz. intros Hn. exfalso. apply Hn.
    rewrite Hz. apply map_size_empty.
  - exists (fill_defaults <$> default ∅ (Db.collections db !! "_settings")).
    split; [apply (f_equal Some), map_fmap_ext; intros; unfold fill_defaults; reflexivity|].
    split; [rewrite map_size_fmap; exact Hnz|]. split.
    { intros id d Hd k v Hin. rewrite lookup_fmap in Hd.
      destruct (default ∅ (Db.collections db !! "_settings") !! id) as [d0|]; [|discriminate].
      change (Some (fill_defaults d0) = Some d) in Hd.
      assert (Hd' : d = fill_defaults d0) by congruence.
      rewrite Hd'. exact (fill_defaults_contains d0 k v Hin). }
    split.
    + destruct (Db.collections db !! "_settings") as [g|]; [|exact I]. intros _.
      change (default ∅ (Some g)) with g. reflexivity.
    + intros Hc. exfalso. apply Hnz. apply map_size_empty_iff. exact Hc.
Qed.

Lemma migrate_settings_lookup (db : Db.Database) :
  Db.collections (Db.ensure_internal_collections db) !! "_settings" = Db.collections db !! "_settings".
Proof. apply (proj1 (ensure_internal_frame db)). discriminate. Qed.

Lemma ensure_settings_filled (rnd : list byte) (db : Db.Database) (col : Db.Collection) :
  Db.collections db !! "_settings" = Some col -> size col <> 0%nat -> settings_filled col ->
  Db.ensure_settings_defaults rnd db = db.
Proof.
  intros Hc Hn Hf. unfold Db.ensure_settings_defaults, Db.set_collections. rewrite Hc.
  change (default ∅ (Some col)) with col.
  rewrite (proj2 (Nat.eqb_neq _ _) Hn).
  rewrite (map_fmap_ext _ id col), map_fmap_id.
  - rewrite insert_id by exact Hc. destruct db; reflexivity.
  - intros i d Hd. apply fold_set_default_id. apply List.Forall_forall.
    intros [k v] Hin. exact (Hf i d Hd k v Hin).
Qed.

(* ------------------------------------------------------------------ *)
(** * JSON of user documents *)

Lemma omap_filter_password {B} (g : string * Value -> option B) (doc : Document) :
  (forall x, g ("password", x) = None) ->
  omap g doc = omap g (List.filter not_password doc).
Proof.
  intros Hg. induction doc as [|[k v] doc IH]; [reflexivity|].
  cbn [List.filter]. unfold not_password at 1. cbn [fst].
  destruct (String.eqb_spec k "password") as [->|Hne]; cbn [negb].
  - cbn [omap list_omap]. rewrite Hg. exact IH.
  - cbn [omap list_omap]. destruct (g (k, v)); rewrite IH; reflexivity.
Qed.

Lemma users_json_filter (f64 : Z -> string) (doc : Document) :
  Db.doc_to_json_for_collection f64 "_users" doc =
  Db.doc_to_json_for_collection f64 "_users" (List.filter not_password doc).
Proof.
  unfold Db.doc_to_json_for_collection. rewrite omap_filter_password; [reflexivity|].
  intros x. reflexivity.
Qed.

Lemma filter_doc_insert_password (v : Value) (doc : Document) :
  List.filter not_password (doc_insert "password" v doc) = List.filter not_password doc.
Proof.
  induction doc as [|[k w] doc IH]; [reflexivity|].
  cbn [doc_insert]. destruct (String.eqb_spec "password" k) as [<-|Hne].
  - reflexivity.
  - cbn [List.filter]. rewrite IH. reflexivity.
Qed.

(* ------------------------------------------------------------------ *)
(** * Authentication checks *)

Lemma validate_token_effect (token : string) (t : Z) (db : Db.Database) :
  let '(uid, db', effs) := Db.validate_token token t db in
  (is_Some uid -> db' = db /\ effs = []) /\ Db.auth_effect db db' effs.
Proof.
  unfold Db.validate_token.
  destruct (Db.find_by "_sessions" "token" token db) as [session|];
    [|split; [auto|left; auto]].
  destruct (doc_get "expires" session) as [v|]; [|split; [auto|left; auto]].
  destruct v as [| | e | | | |]; try (split; [auto|left; auto]).
  destruct (e <? t)%Z; [|split; [auto|left; auto]].
  destruct (doc_get "id" session) as [v|]; [|split; [intros [? H]; discriminate H|left; auto]].
  destruct v as [| | | | sid | |]; try (split; [intros [? H]; discriminate H|left; auto]).
  unfold Db.delete.
  destruct (Db.collections db !! "_sessions") as [col|] eqn:Hc;
    [|split; [intros [? H]; discriminate H|left; auto]].
  destruct (col !! sid) as [d|] eqn:Hd; [|split; [intros [? H]; discriminate H|left; auto]].
  split; [intros [? H]; discriminate H|].
  right. exists col, sid. split; [exact Hc|]. split; [exists d; exact Hd|]. split; reflexivity.
Qed.

Lemma require_auth_effect (token : string) (t : Z) (db : Db.Database) :
  let '(ok, db', effs) := Db.require_auth token t db in
  (ok = true -> db' = db /\ effs = []) /\ Db.auth_effect db db' effs.
Proof.
  unfold Db.require_auth.
  pose proof (validate_token_effect token t db) as H.
  destruct (Db.validate_token token t db) as [[uid db'] effs].
  destruct H as [H1 H2]. split; [|exact H2].
  destruct uid as [uid|]; [intros _; apply H1; eexists; reflexivity|intros H; discriminate H].
Qed.

Lemma require_admin_effect (token : string) (t : Z) (db : Db.Database) :
  let '(ok, db', effs) := Db.require_admin token t db in
  (ok = true -> db' = db /\ effs = []) /\ Db.auth_effect db db' effs.
Proof.
  unfold Db.require_admin, Db.is_admin, Db.get_user.
  pose proof (validate_token_effect token t db) as H.
  destruct (Db.validate_token token t db) as [[uid db'] effs].
  destruct H as [H1 H2]. split; [|exact H2].
  destruct uid as [uid|]; [intros _; apply H1; eexists; reflexivity|intros H; discriminate H].
Qed.

Lemma auth_effect_refl (db : Db.Database) : Db.auth_effect db db [].
Proof. left. split; reflexivity. Qed.

(* ------------------------------------------------------------------ *)
(** * Claims *)

(** C2 (amended). Encoding a document with [write_doc] and decoding the
    buffer with [read_doc] from position 0 gives back the same document,
    having consumed the whole buffer, for every document, nested arrays
    and objects included, that respects the types of the source
    ([doc_wf]: [i64] integers, 64-bit float patterns, UTF-8 strings,
    distinct keys in every object) and in which every string is shorter
    than 2^32 bytes and every array and object has fewer than 2^32 entries
    ([doc_fits_u32]), so that no [u32] length or count prefix wraps. *)
Theorem codec_roundtrip (d : Document) :
  doc_wf d = true -> doc_fits_u32 d = true ->
  read_doc (write_doc d) 0 = Some (d, length (write_doc d)).
Proof. apply read_doc_back. Qed.

Lemma codec_roundtrip_witness :
  let d := [("title", VString "hi");
            ("tags", Array [Int 1; Bool true; Null; Array [VString "x"]]);
            ("meta", Object [("n", Float 4607182418800017408); ("x", Int (-5))])] in
  doc_wf d = true /\ doc_fits_u32 d = true /\
  read_doc (write_doc d) 0 = Some (d, length (write_doc d)).
Proof.
  intros d. split; [vm_compute; reflexivity|]. split; [vm_compute; reflexivity|].
  apply codec_roundtrip; vm_compute; reflexivity.
Defined.

(** C2, counterexample: the document [{"k": s}] where [s] is 2^32 ['a']
    characters respects the types, but [s.len() as u32] wraps to 0, so
    decoding yields [{"k": ""}] instead. *)
Lemma codec_roundtrip_cex :
  doc_wf [("k", VString big_string)] = true /\
  option_map fst (read_doc (write_doc [("k", VString big_string)]) 0)
  <> Some [("k", VString big_string)].
Proof.
  split.
  - unfold doc_wf. rewrite value_wf_Object. cbn [pairs_wf value_wf].
    rewrite big_string_valid. reflexivity.
  - rewrite (read_doc_wrapped_string "k" big_string eq_refl
               ltac:(vm_compute; reflexivity) big_string_len).
    intros E.
    apply (f_equal (fun o => match o with
                            | Some [(_, VString s)] => String.list_byte_of_string s
                            | _ => []
                            end)) in E.
    cbv beta iota in E. rewrite big_string_bytes in E.
    apply (f_equal (@length byte)) in E. rewrite repeat_length in E.
    apply (f_equal Z.of_nat) in E. rewrite Z2Nat.id in E by lia.
    change (Z.of_nat (length (String.list_byte_of_string ""))) with 0%Z in E. lia.
Qed.

(** C5. For every 32-byte key and 12-byte nonce, [chacha20] with the
    block counter starting at 0 is its own inverse on byte strings of any
    length. *)
Theorem chacha20_self_inverse (k v d : list byte) :
  length k = 32%nat -> length v = 12%nat ->
  Crypto.chacha20 k v (Crypto.chacha20 k v d) = d.
Proof.
  intros _ _. unfold Crypto.chacha20.
  rewrite length_chacha20_go by lia.
  apply chacha20_go_involutive; lia.
Qed.

Lemma chacha20_self_inverse_witness :
  let k := map z2b (seqZ 0 32) in
  let v := repeat Byte.x07 12 in
  let d := String.list_byte_of_string "plain text that spans more than one sixty-four byte block of keystream" in
  length k = 32%nat /\ length v = 12%nat /\
  Crypto.chacha20 k v (Crypto.chacha20 k v d) = d.
Proof.
  intros k v d. split; [reflexivity|]. split; [reflexivity|].
  apply chacha20_self_inverse; reflexivity.
Defined.

(** C7 (a defect of the code). [verify_password] panics on a malformed
    stored string: for the stored string ["a:00"], [hex_decode("a")]
    slices [s[0..2]] past the end of a one-byte string. *)
Theorem verify_password_odd_hex_panics :
  Crypto.verify_password "x" "a:00" = Crypto.Panic.
Proof. vm_compute. reflexivity. Qed.

(** C9. [delete_collection] on a name starting with ['_'] returns
    [false], leaves the database (collections, documents and schemas)
    exactly as it was, and has no effect: no write and no event. *)
Theorem delete_collection_system (name : string) (db : Db.Database) :
  Db.starts_with_underscore name = true ->
  Db.delete_collection name db = (false, db, []).
Proof. intros H. unfold Db.delete_collection. rewrite H. reflexivity. Qed.

Lemma delete_collection_system_witness :
  let db := Db.new (String.list_byte_of_string "key") in
  Db.starts_with_underscore "_users" = true /\
  Db.delete_collection "_users" db = (false, db, []).
Proof.
  intros db. split; [reflexivity|]. apply delete_collection_system. reflexivity.
Defined.

(** C10. [delete_collection] on a name not starting with ['_'] returns
    [true] whether or not the collection exists: both maps lose the name
    (which changes nothing when it is absent), the store is written, and
    a [collection.deleted] event for the name is emitted. *)
Theorem delete_collection_user (name : string) (db : Db.Database) :
  Db.starts_with_underscore name = false ->
  Db.delete_collection name db =
    (true, Db.mkDatabase (delete name (Db.collections db)) (delete name (Db.schemas db))
                         (Db.encryption_key db),
     [Db.Sync (delete name (Db.collections db)) (delete name (Db.schemas db));
      Db.Broadcast "collection.deleted" name None None]).
Proof. intros H. unfold Db.delete_collection. rewrite H. reflexivity. Qed.

Lemma delete_collection_user_witness :
  let db := Db.new (String.list_byte_of_string "key") in
  Db.starts_with_underscore "ghost" = false /\ Db.collections db !! "ghost" = None /\
  Db.delete_collection "ghost" db =
    (true, Db.mkDatabase (delete "ghost" (Db.collections db)) (delete "ghost" (Db.schemas db))
                         (Db.encryption_key db),
     [Db.Sync (delete "ghost" (Db.collections db)) (delete "ghost" (Db.schemas db));
      Db.Broadcast "collection.deleted" "ghost" None None]).
Proof.
  intros db. split; [reflexivity|]. split; [vm_compute; reflexivity|].
  apply delete_collection_user. reflexivity.
Defined.

(** C1 (amended). The collection endpoint, on a request whose token passes
    the admin check, rejects with [400 Invalid collection name] and no
    change exactly the names that are empty or start with ['_']; every
    other name is accepted ([201]) whether or not a collection of that name
    exists, and the collection is then (re)created empty with the requested
    fields, with a write and a [collection.created] event, so an existing
    collection loses its documents. A request that fails the admin check is
    refused with [401] and creates or replaces no collection or schema: the
    check itself leaves the store as it is or, for an expired session,
    removes that session from [_sessions] with a write and a [doc.deleted]
    event ([auth_effect]); the response and the store are those the check
    leaves. *)
Theorem api_create_collection_spec (token : string) (ta : Z) (json : Document)
    (db : Db.Database) :
  let name := Db.json_name json in
  let '(admin, db1, e1) := Db.require_admin token ta db in
  (admin = true -> name = "" \/ Db.starts_with_underscore name = true ->
   Db.api_create_collection token ta json db = (Db.bad_request "Invalid collection name", db, [])) /\
  (admin = true -> name <> "" -> Db.starts_with_underscore name = false ->
   let db' := Db.mkDatabase (<[name := ∅]> (Db.collections db))
                            (<[name := Db.mkSchema (Db.json_fields json)]> (Db.schemas db))
                            (Db.encryption_key db) in
   Db.api_create_collection token ta json db =
     (Db.created (Db.json_pair "name" name), db',
      [Db.sync db'; Db.Broadcast "collection.created" name None None])) /\
  (admin = false ->
   Db.api_create_collection token ta json db = (Db.unauthorized, db1, e1) /\
   Db.auth_effect db db1 e1).
Proof.
  cbv zeta. unfold Db.api_create_collection.
  pose proof (require_admin_effect token ta db) as Hr.
  destruct (Db.require_admin token ta db) as [[admin db1] e1].
  destruct Hr as [Hok Heff].
  split; [|split].
  - intros Ha H. destruct (Hok Ha) as [-> ->]. subst admin. cbn [negb].
    destruct H as [H|H]; rewrite H; [reflexivity|].
    rewrite orb_true_r. reflexivity.
  - intros Ha H1 H2. destruct (Hok Ha) as [-> ->]. subst admin. cbn [negb].
    apply String.eqb_neq in H1. rewrite H1, H2. cbn [orb]. reflexivity.
  - intros Ha. subst admin. split; [reflexivity|exact Heff].
Qed.

(** C1, counterexample: in [demo_db], where ["notes"] holds one document,
    the administrator's request [{"name": "notes"}] is accepted with [201]
    and leaves ["notes"] empty. *)
Lemma api_create_collection_cex :
  let '(resp, db2, _) := Db.api_create_collection "tok" 500 [("name", VString "notes")] demo_db in
  Db.status resp = 201%Z /\
  (size <$> Db.collections demo_db !! "notes") = Some 1%nat /\
  (size <$> Db.collections db2 !! "notes") = Some 0%nat.
Proof. vm_compute. split; [reflexivity|split; reflexivity]. Qed.

(** C3. [update] on an existing collection and document id, with a
    payload (a map, so its keys are distinct), returns [true] and replaces
    only that document (schemas untouched); in the new document ["id"] and
    ["created"] keep their old values even if the payload has them,
    ["updated"] is the clock reading, and every other key takes the
    payload's value if it has one, the old value otherwise. When the
    collection or the id does not exist, [update] returns [false] and
    changes nothing, with no write and no event. *)
Theorem update_merges (c id : string) (ups : Document) (t : Z) (db : Db.Database) :
  NoDup (map fst ups) ->
  (forall col doc,
     Db.collections db !! c = Some col -> col !! id = Some doc ->
     let '(ok, db', _) := Db.update c id ups t db in
     ok = true /\ Db.schemas db' = Db.schemas db /\
     exists doc',
       Db.collections db' = <[c := <[id := doc']> col]> (Db.collections db) /\
       doc_get "id" doc' = doc_get "id" doc /\
       doc_get "created" doc' = doc_get "created" doc /\
       doc_get "updated" doc' = Some (Int t) /\
       (forall k, k <> "id" -> k <> "created" -> k <> "updated" ->
          doc_get k doc' = match doc_get k ups with
                           | Some v => Some v
                           | None => doc_get k doc
                           end)) /\
  (Db.find_one c id db = None -> Db.update c id ups t db = (false, db, [])).
Proof.
  intros Hnd. split.
  - intros col doc Hc Hd. unfold Db.update. rewrite Hc, Hd.
    split; [reflexivity|]. split; [reflexivity|].
    eexists. split; [reflexivity|].
    rewrite !doc_get_insert, !doc_get_merge by exact Hnd. cbn -[doc_get].
    split; [reflexivity|]. split; [reflexivity|]. split; [reflexivity|].
    intros k H1 H2 H3. rewrite doc_get_insert, doc_get_merge by exact Hnd.
    apply String.eqb_neq in H1, H2, H3. rewrite H1, H2, H3. reflexivity.
  - unfold Db.find_one, Db.update. intros H.
    destruct (Db.collections db !! c) as [col|]; [|reflexivity].
    cbn in H. rewrite H. reflexivity.
Qed.

Lemma update_merges_witness :
  let db0 := (Db.create_collection "notes" [] (Db.new (String.list_byte_of_string "key"))).1 in
  let db1 := (Db.insert "notes" [("title", VString "a")] (repeat Byte.x00 12) 100 100 db0).1.2 in
  let ups := [("title", VString "b"); ("id", VString "forged"); ("created", Int 0)] in
  NoDup (map fst ups) /\
  (Db.update "notes" "000000000000000000000000" ups 200 db1).1.1 = true.
Proof.
  intros db0 db1 ups.
  assert (Hnd : NoDup (map fst ups)) by (apply (bool_decide_unpack (NoDup (map fst ups))); vm_compute; exact I).
  split; [exact Hnd|].
  set (col := default ∅ (Db.collections db1 !! "notes")).
  set (doc := default [] (col !! "000000000000000000000000")).
  destruct (update_merges "notes" "000000000000000000000000" ups 200 db1 Hnd) as [H _].
  specialize (H col doc ltac:(vm_compute; reflexivity) ltac:(vm_compute; reflexivity)).
  revert H. destruct (Db.update "notes" "000000000000000000000000" ups 200 db1)
    as [[ok db'] effs]. intros [Hok _]. exact Hok.
Defined.

Lemma api_create_collection_spec_witness :
  let json := [("name", VString "todo");
               ("fields", Array [Object [("name", VString "title"); ("type", VString "string")]])] in
  let db' := Db.mkDatabase (<["todo" := ∅]> (Db.collections demo_db))
                           (<["todo" := Db.mkSchema [("title", "string")]]> (Db.schemas demo_db))
                           (Db.encryption_key demo_db) in
  (Db.require_admin "tok" 500 demo_db).1.1 = true /\
  Db.api_create_collection "tok" 500 json demo_db =
    (Db.created (Db.json_pair "name" "todo"), db',
     [Db.sync db'; Db.Broadcast "collection.created" "todo" None None]) /\
  (Db.require_admin "tok" 2000 demo_db).1.1 = false /\
  Db.api_create_collection "tok" 2000 json demo_db =
    (Db.unauthorized, (Db.require_admin "tok" 2000 demo_db).1.2,
     (Db.require_admin "tok" 2000 demo_db).2).
Proof.
  intros json db'.
  assert (Ha : (Db.require_admin "tok" 500 demo_db).1.1 = true) by (vm_compute; reflexivity).
  assert (Hb : (Db.require_admin "tok" 2000 demo_db).1.1 = false) by (vm_compute; reflexivity).
  assert (Hn : Db.json_name json = "todo") by reflexivity.
  assert (Hf : Db.json_fields json = [("title", "string")]) by reflexivity.
  pose proof (api_create_collection_spec "tok" 500 json demo_db) as H1.
  pose proof (api_create_collection_spec "tok" 2000 json demo_db) as H2.
  cbv zeta in H1, H2. rewrite Hn, Hf in H1. rewrite Hn in H2.
  revert H1 Ha. destruct (Db.require_admin "tok" 500 demo_db) as [[a1 d1] e1].
  cbn [fst snd]. intros [_ [H1 _]] Ha.
  split; [exact Ha|]. split.
  - apply (H1 Ha); [discriminate|reflexivity].
  - revert H2 Hb. destruct (Db.require_admin "tok" 2000 demo_db) as [[a2 d2] e2].
    cbn [fst snd]. intros [_ [_ H2]] Hb. split; [exact Hb|]. exact (proj1 (H2 Hb)).
Defined.

(** C4 (amended). In every state reachable from [Database::new] by the
    engine's operations (collection creation and deletion, document
    insert, update and delete, [deserialize], [load] and the migrations),
    every name with a schema also has a collection. The two key sets are
    equal in every state reached when each image read by [deserialize]
    (directly or through [load]) names in its collection table only
    collections that have a schema once its schema table is read
    ([image_closed]); an image that names any other collection adds it
    without a schema. *)
Theorem collection_keys (db : Db.Database) :
  (Db.reachable db -> dom (Db.schemas db) ⊆ dom (Db.collections db)) /\
  (Db.reachable_with Db.closed_step db -> dom (Db.collections db) = dom (Db.schemas db)).
Proof.
  split.
  - intros Hr. unfold Db.reachable in Hr.
    cut (keys_sub db); [auto|].
    induction Hr as [key|l db0 db1 _ IH _ Hst].
    + apply keys_agree_sub, new_keys.
    + apply (proj1 (step_keys _ _ _ Hst)), IH.
  - intros Hr. cut (keys_agree db); [intros [H _]; exact H|].
    induction Hr as [key|l db0 db1 _ IH Hok Hst].
    + apply new_keys.
    + apply (proj2 (step_keys _ _ _ Hst)); assumption.
Qed.

Lemma collection_keys_witness :
  let db := (Db.create_collection "notes" [] (Db.new (String.list_byte_of_string "key"))).1 in
  Db.reachable db /\ dom (Db.schemas db) ⊆ dom (Db.collections db).
Proof.
  intros db.
  assert (Hr : Db.reachable db).
  { eapply Db.reach_step; [apply Db.reach_new | exact I | apply Db.step_create_collection]. }
  split; [exact Hr|]. apply (collection_keys db), Hr.
Defined.

(** C4, counterexample: loading, right after [Database::new] with the
    empty key, a well-formed file whose image has an empty schema table and
    a collection table naming ["x"] yields a reachable state where ["x"]
    has a collection and no schema. *)
Lemma collection_keys_cex :
  let image := u32_bytes 0 ++ write_string "x" ++ u32_bytes 0 in
  let file := [Byte.x01] ++ repeat Byte.x00 12
              ++ Crypto.chacha20 (Crypto.sha256 []) (repeat Byte.x00 12) image in
  exists db, Db.load [] (Some file) (Db.new []) = Some db /\ Db.reachable db /\
             dom (Db.collections db) <> dom (Db.schemas db).
Proof.
  intros image file.
  exists (default (Db.new []) (Db.load [] (Some file) (Db.new []))).
  assert (Hl : Db.load [] (Some file) (Db.new [])
               = Some (default (Db.new []) (Db.load [] (Some file) (Db.new []))))
    by (vm_compute; reflexivity).
  split; [exact Hl|]. split.
  - eapply Db.reach_step; [apply (Db.reach_new _ []) | exact I | apply (Db.step_load [] (Some file)); exact Hl].
  - intros E.
    pose proof (f_equal (fun s : gset string => bool_decide ("x" ∈ s)) E) as F.
    vm_compute in F. discriminate F.
Qed.

(** C6 (amended). [insert] into an existing collection at the insertion
    time [t] (the value [now()] reads for the ["created"] and the
    ["updated"] field) returns [Some id] where [id] is the 24-character
    lowercase hexadecimal encoding of 12 bytes of the random source, and
    stores the document under [id] in that collection; the id is not
    checked against the ids already there, so a document stored under the
    same id is replaced. The stored document has ["id"] = [id], ["created"]
    and ["updated"] both equal to [t], and its other fields as given. Into
    a missing collection, [insert] returns [None] and changes nothing, with
    no write and no event. *)
Theorem insert_spec (c : string) (doc : Document) (rnd : list byte) (t : Z)
    (db : Db.Database) :
  (forall col, Db.collections db !! c = Some col ->
     let id := Crypto.random_hex 12 rnd in
     let '(r, db', _) := Db.insert c doc rnd t t db in
     r = Some id /\
     str_len id = 24%nat /\
     Forall (fun b => Crypto.is_lower_hex b = true) (String.list_byte_of_string id) /\
     Db.schemas db' = Db.schemas db /\
     exists doc',
       Db.collections db' = <[c := <[id := doc']> col]> (Db.collections db) /\
       doc_get "id" doc' = Some (VString id) /\
       doc_get "created" doc' = Some (Int t) /\
       doc_get "updated" doc' = Some (Int t) /\
       (forall k, k <> "id" -> k <> "created" -> k <> "updated" ->
          doc_get k doc' = doc_get k doc)) /\
  (Db.collections db !! c = None -> Db.insert c doc rnd t t db = (None, db, [])).
Proof.
  split.
  - intros col Hc. cbv zeta. unfold Db.insert. rewrite Hc. cbv beta iota zeta.
    destruct (hex_encode_bytes (Crypto.random_bytes 12 rnd)) as [Hl Hf].
    rewrite length_random_bytes in Hl. fold (Crypto.random_hex 12 rnd) in Hl, Hf.
    split; [reflexivity|]. split; [exact Hl|]. split; [exact Hf|].
    split; [reflexivity|]. eexists. split; [reflexivity|].
    rewrite !doc_get_insert. simpl.
    split; [reflexivity|]. split; [reflexivity|]. split; [reflexivity|].
    intros k H1 H2 H3. rewrite !doc_get_insert.
    apply String.eqb_neq in H1, H2, H3. rewrite H1, H2, H3. reflexivity.
  - intros H. unfold Db.insert. rewrite H. reflexivity.
Qed.

Lemma insert_spec_witness :
  let db := (Db.create_collection "notes" [] (Db.new (String.list_byte_of_string "key"))).1 in
  (Db.insert "notes" [("title", VString "a")] (seqZ 1 12 ≫= fun z => [z2b z]) 100 100 db).1.1
  = Some (Crypto.random_hex 12 (seqZ 1 12 ≫= fun z => [z2b z])).
Proof.
  intros db. destruct (insert_spec "notes" [("title", VString "a")]
                         (seqZ 1 12 ≫= fun z => [z2b z]) 100 db) as [H _].
  specialize (H ∅ ltac:(vm_compute; reflexivity)). cbv zeta in H.
  revert H. destruct (Db.insert "notes" [("title", VString "a")]
                        (seqZ 1 12 ≫= fun z => [z2b z]) 100 100 db) as [[r db'] effs].
  intros [Hr _]. exact Hr.
Defined.

(** C6, counterexample: two inserts into ["notes"] that draw the same 12
    random bytes return the same id, and that id was already present in
    the collection when the second insert returned it. *)
Lemma insert_spec_cex :
  let db0 := (Db.create_collection "notes" [] (Db.new (String.list_byte_of_string "key"))).1 in
  let db1 := (Db.insert "notes" [("title", VString "first")] (repeat Byte.x00 12) 100 100 db0).1.2 in
  (Db.insert "notes" [("title", VString "first")] (repeat Byte.x00 12) 100 100 db0).1.1
    = Some "000000000000000000000000" /\
  (Db.insert "notes" [("title", VString "second")] (repeat Byte.x00 12) 200 200 db1).1.1
    = Some "000000000000000000000000" /\
  Db.find_one "notes" "000000000000000000000000" db1 <> None.
Proof.
  intros db0 db1. split; [vm_compute; reflexivity|]. split; [vm_compute; reflexivity|].
  intros E. vm_compute in E. discriminate E.
Qed.

(** C8. [load] of a file shorter than 14 bytes (so also of one shorter
    than the 13 header bytes) or whose first byte is not the format
    version 1 returns without error and changes nothing: after [init] the
    store is the bootstrap state of [Database::new]. Only the other files
    are decrypted (with the derived key and the nonce of bytes 1..13) and
    deserialized, as the definition of [load] shows. *)
Theorem load_without_header (key : string) (rnd fd : list byte) :
  (length fd < 14)%nat \/ head fd <> Some Byte.x01 ->
  Db.init key rnd (Some fd) = Some (Db.new (String.list_byte_of_string key)) /\
  (forall db, Db.load rnd (Some fd) db = Some db).
Proof.
  intros H.
  assert (Hh : Db.header_ok fd = false).
  { unfold Db.header_ok. destruct H as [H|H].
    - apply Nat.ltb_lt in H. rewrite H. reflexivity.
    - destruct fd as [|b fd]; [apply andb_false_r|]. cbn [head] in H.
      destruct (Byte.eqb b Byte.x01) eqn:E; [|apply andb_false_r].
      apply Byte.byte_dec_bl in E. congruence. }
  split; [|intros db]; unfold Db.init, Db.load; rewrite Hh; reflexivity.
Qed.

Lemma load_without_header_witness :
  let fd := Byte.x02 :: repeat Byte.x00 40 in
  ((length fd < 14)%nat \/ head fd <> Some Byte.x01) /\
  Db.init "secret" [] (Some fd) = Some (Db.new (String.list_byte_of_string "secret")).
Proof.
  intros fd.
  assert (H : (length fd < 14)%nat \/ head fd <> Some Byte.x01)
    by (right; intros E; discriminate E).
  split; [exact H|]. apply (load_without_header "secret" [] fd H).
Defined.

(* ------------------------------------------------------------------ *)
(** * Further properties of the code *)

(** X1. [hex_decode] reads back what [hex_encode] writes, for every byte
    string. *)
Theorem hex_decode_hex_encode (bs : list byte) :
  Crypto.hex_decode (String.list_byte_of_string (Crypto.hex_encode bs)) = Crypto.Ok (Some bs).
Proof. unfold Crypto.hex_decode. rewrite hex_encode_bytes_eq. apply hex_decode_go_pairs. Qed.

(** X2. [hex_decode] also accepts pairs of the form ['+'] followed by one
    hex digit, the sign that [u8::from_str_radix] allows: every byte below
    16 written that way is read back. *)
Theorem hex_decode_plus_prefix (bs : list byte) :
  Forall (fun b => (b2z b < 16)%Z) bs ->
  Crypto.hex_decode (concat (map (fun b => [Byte.x2b; Crypto.hex_digit (b2z b)]) bs))
  = Crypto.Ok (Some bs).
Proof.
  unfold Crypto.hex_decode. induction 1 as [|b bs Hb Hbs IH]; [reflexivity|].
  cbn [map concat app Crypto.hex_decode_go].
  rewrite plus_pair_byte by exact Hb. rewrite IH.
  destruct bs as [|b' bs']; reflexivity.
Qed.

Lemma hex_decode_plus_prefix_witness :
  Forall (fun b => (b2z b < 16)%Z) [Byte.x0a; Byte.x00] /\
  Crypto.hex_decode (concat (map (fun b => [Byte.x2b; Crypto.hex_digit (b2z b)]) [Byte.x0a; Byte.x00]))
  = Crypto.Ok (Some [Byte.x0a; Byte.x00]).
Proof.
  assert (H : Forall (fun b => (b2z b < 16)%Z) [Byte.x0a; Byte.x00])
    by (repeat constructor; vm_compute; reflexivity).
  split; [exact H|]. exact (hex_decode_plus_prefix _ H).
Defined.

(** X4. [chacha20] returns exactly as many bytes as it is given, for every
    key and nonce. *)
Theorem chacha20_length (key nonce data : list byte) :
  length (Crypto.chacha20 key nonce data) = length data.
Proof. unfold Crypto.chacha20. apply length_chacha20_go. lia. Qed.

(** X5. A string made by [hash_password] has 97 bytes: 32 lowercase hex
    digits of the salt, a [':'] at index 32, then 64 lowercase hex digits of
    the hash. *)
Theorem hash_password_format (pw : string) (rnd : list byte) :
  let s := String.list_byte_of_string (Crypto.hash_password pw rnd) in
  length s = 97%nat /\ nth 32 s Byte.x00 = Byte.x3a /\
  Forall (fun b => Crypto.is_lower_hex b = true) (firstn 32 s ++ skipn 33 s).
Proof.
  apply hex_pair_format; [apply length_random_bytes|apply length_pbkdf2].
Qed.

(** X6. [verify_password] accepts the password a stored string was made from
    by [hash_password], whatever the random salt. *)
Theorem verify_hash_password (pw : string) (rnd : list byte) :
  Crypto.verify_password pw (Crypto.hash_password pw rnd) = Crypto.Ok true.
Proof.
  unfold Crypto.hash_password. cbv zeta. rewrite verify_password_hex.
  destruct (List.list_eq_dec _ _ _) as [_|H]; [reflexivity|]. exfalso. apply H. reflexivity.
Qed.

(** X7. A stored string hex(salt) [':'] hex(h) whose hash part [h] is not 32
    bytes long is rejected (without panic) for every password. *)
Theorem verify_password_wrong_length (pw : string) (salt h : list byte) :
  length h <> 32%nat ->
  Crypto.verify_password pw
    (String.append (Crypto.hex_encode salt) (String.append ":" (Crypto.hex_encode h)))
  = Crypto.Ok false.
Proof.
  intros Hh. rewrite verify_password_hex.
  destruct (List.list_eq_dec _ _ _) as [E|_]; [|reflexivity].
  exfalso. apply Hh. rewrite <- E. apply length_pbkdf2.
Qed.

Lemma verify_password_wrong_length_witness :
  length (@nil byte) <> 32%nat /\
  Crypto.verify_password "pw"
    (String.append (Crypto.hex_encode []) (String.append ":" (Crypto.hex_encode [])))
  = Crypto.Ok false.
Proof.
  assert (H : length (@nil byte) <> 32%nat) by discriminate.
  split; [exact H|]. exact (verify_password_wrong_length "pw" [] [] H).
Defined.

(** X8. A stored string that does not contain exactly one [':'] is rejected
    (without panic) for every password. *)
Theorem verify_password_colon_count (pw stored : string) :
  length (List.filter (fun b => Byte.eqb b Byte.x3a) (String.list_byte_of_string stored)) <> 1%nat ->
  Crypto.verify_password pw stored = Crypto.Ok false.
Proof.
  intros H. unfold Crypto.verify_password.
  pose proof (length_split_colon (String.list_byte_of_string stored)) as E.
  destruct (Crypto.split_colon (String.list_byte_of_string stored)) as [|p0 [|p1 [|p2 ps]]];
    [reflexivity|reflexivity| |reflexivity].
  cbn [length] in E. lia.
Qed.

Lemma verify_password_colon_count_witness :
  length (List.filter (fun b => Byte.eqb b Byte.x3a) (String.list_byte_of_string "a:b:c")) <> 1%nat /\
  Crypto.verify_password "pw" "a:b:c" = Crypto.Ok false.
Proof.
  assert (H : length (List.filter (fun b => Byte.eqb b Byte.x3a)
                (String.list_byte_of_string "a:b:c")) <> 1%nat) by (vm_compute; discriminate).
  split; [exact H|]. exact (verify_password_colon_count "pw" "a:b:c" H).
Defined.

(** X9. For a database whose strings are valid UTF-8, whose counts and
    lengths fit in a [u32], whose documents respect the value types, and
    whose collection and schema maps have the same keys, [deserialize] of
    its [serialize] image merges it into the current state: every collection
    and schema of the image replaces the one of the same name, the others
    and the key stay. *)
Theorem deserialize_serialize (db db0 : Db.Database) :
  db_codec_ok db = true -> dom (Db.collections db) = dom (Db.schemas db) ->
  Db.deserialize (Db.serialize db) db0 =
  Some (Db.mkDatabase (Db.collections db ∪ Db.collections db0)
                      (Db.schemas db ∪ Db.schemas db0) (Db.encryption_key db0)).
Proof. apply deserialize_serialize_eq. Qed.

Lemma deserialize_serialize_witness :
  db_codec_ok demo_db = true /\
  dom (Db.collections demo_db) = dom (Db.schemas demo_db) /\
  Db.deserialize (Db.serialize demo_db) other_db =
  Some (Db.mkDatabase (Db.collections demo_db ∪ Db.collections other_db)
                      (Db.schemas demo_db ∪ Db.schemas other_db) (Db.encryption_key other_db)).
Proof.
  assert (H1 : db_codec_ok demo_db = true) by (vm_compute; reflexivity).
  assert (H2 : dom (Db.collections demo_db) = dom (Db.schemas demo_db)) by (vm_compute; reflexivity).
  split; [exact H1|]. split; [exact H2|].
  exact (deserialize_serialize demo_db other_db H1 H2).
Defined.

(** X10. [load] of a file written by [sync] (same key, database as in X9)
    restores the image merged into the current state and then runs the
    system-default migration. *)
Theorem load_sync_image (rnd rnd' : list byte) (db db0 : Db.Database) :
  db_codec_ok db = true -> dom (Db.collections db) = dom (Db.schemas db) ->
  Db.encryption_key db0 = Db.encryption_key db ->
  Db.load rnd' (Some (Db.sync_image rnd db)) db0 =
  Some (Db.migrate_system_defaults rnd'
          (Db.mkDatabase (Db.collections db ∪ Db.collections db0)
                         (Db.schemas db ∪ Db.schemas db0) (Db.encryption_key db0))).
Proof.
  intros Hok Hdom Hk. unfold Db.load.
  rewrite header_ok_sync_image, decrypt_sync_image by exact Hk.
  rewrite deserialize_serialize_eq by assumption. reflexivity.
Qed.

Lemma load_sync_image_witness :
  db_codec_ok demo_db = true /\
  dom (Db.collections demo_db) = dom (Db.schemas demo_db) /\
  Db.encryption_key other_db = Db.encryption_key demo_db /\
  Db.load [Byte.x09] (Some (Db.sync_image (repeat Byte.x08 12) demo_db)) other_db =
  Some (Db.migrate_system_defaults [Byte.x09]
          (Db.mkDatabase (Db.collections demo_db ∪ Db.collections other_db)
                         (Db.schemas demo_db ∪ Db.schemas other_db) (Db.encryption_key other_db))).
Proof.
  assert (H1 : db_codec_ok demo_db = true) by (vm_compute; reflexivity).
  assert (H2 : dom (Db.collections demo_db) = dom (Db.schemas demo_db)) by (vm_compute; reflexivity).
  assert (H3 : Db.encryption_key other_db = Db.encryption_key demo_db) by (vm_compute; reflexivity).
  split; [exact H1|]. split; [exact H2|]. split; [exact H3|].
  exact (load_sync_image (repeat Byte.x08 12) [Byte.x09] demo_db other_db H1 H2 H3).
Defined.

(** X11. A file with version byte 1 and 14 to 16 bytes passes the header
    check of [load], but its decrypted image has fewer than 4 bytes, so
    reading the schema count panics. *)
Theorem load_truncated_file_panics (rnd fd : list byte) (db : Db.Database) :
  head fd = Some Byte.x01 -> (14 <= length fd <= 16)%nat -> Db.load rnd (Some fd) db = None.
Proof.
  intros Hh Hl. unfold Db.load.
  assert (Hok : Db.header_ok fd = true).
  { unfold Db.header_ok. destruct fd as [|b fd]; [discriminate|]. injection Hh as ->.
    apply andb_true_intro; split; [apply negb_true_iff, Nat.ltb_ge; lia|reflexivity]. }
  rewrite Hok. unfold Db.deserialize, Db.parse_image, read_u32.
  rewrite (proj2 (Nat.leb_gt _ _)); [reflexivity|].
  unfold Db.decrypt_image, Crypto.chacha20. rewrite length_chacha20_go, length_skipn by lia. lia.
Qed.

Lemma load_truncated_file_panics_witness :
  head (Byte.x01 :: repeat Byte.x00 14) = Some Byte.x01 /\
  (14 <= length (Byte.x01 :: repeat Byte.x00 14) <= 16)%nat /\
  Db.load [] (Some (Byte.x01 :: repeat Byte.x00 14)) (Db.new []) = None.
Proof.
  split; [reflexivity|]. split; [cbn; lia|].
  apply load_truncated_file_panics; [reflexivity|cbn; lia].
Defined.

(** X12. [list_all_collections] lists every collection that has a schema,
    each exactly once, and nothing else. *)
Theorem list_all_collections_spec (db : Db.Database) :
  NoDup (Db.list_all_collections db) /\
  forall name, In name (Db.list_all_collections db) <-> is_Some (Db.schemas db !! name).
Proof.
  unfold Db.list_all_collections. split.
  - apply NoDup_map_fst_map_to_list.
  - intros name. apply in_map_fst_map_to_list.
Qed.

(** X13. [list_collections] lists every collection that has a schema and
    whose name does not start with ['_'], each exactly once, and nothing
    else. *)
Theorem list_collections_spec (db : Db.Database) :
  NoDup (Db.list_collections db) /\
  forall name, In name (Db.list_collections db) <->
               is_Some (Db.schemas db !! name) /\ Db.starts_with_underscore name = false.
Proof.
  unfold Db.list_collections. split.
  - apply NoDup_ListNoDup, List.NoDup_filter, NoDup_ListNoDup, NoDup_map_fst_map_to_list.
  - intros name. rewrite List.filter_In, in_map_fst_map_to_list, negb_true_iff. reflexivity.
Qed.

(** X14. [find_by] returns only a stored document of the collection whose
    field is the given string, and returns nothing only when no stored
    document of the collection has that field set to that string. *)
Theorem find_by_spec (collection field value : string) (db : Db.Database) :
  (forall d, Db.find_by collection field value db = Some d ->
     exists id, Db.find_one collection id db = Some d /\
                doc_get field d = Some (VString value)) /\
  (Db.find_by collection field value db = None ->
     forall id d, Db.find_one collection id db = Some d ->
                  doc_get field d <> Some (VString value)).
Proof.
  unfold Db.find_by, Db.find_one.
  destruct (Db.collections db !! collection) as [col|]; cbn [mbind option_bind]; [|split; [discriminate|intros _ id d; discriminate]].
  split.
  - intros d Hf. apply find_some in Hf as [Hin Hd].
    apply in_map_snd_map_to_list in Hin as [id Hid]. exists id. split; [exact Hid|].
    destruct (doc_get field d) as [[]|]; cbn in Hd; try discriminate.
    apply String.eqb_eq in Hd. subst. reflexivity.
  - intros Hf id d Hid Hd. eapply find_none in Hf.
    + rewrite Hd in Hf. cbn in Hf. rewrite String.eqb_refl in Hf. discriminate.
    + apply in_map_snd_map_to_list. exists id. exact Hid.
Qed.

(** X15. [find_all] returns one entry per document of the collection, and
    exactly the stored documents; a missing collection gives the empty list. *)
Theorem find_all_spec (collection : string) (db : Db.Database) :
  length (Db.find_all collection db) = default 0%nat (size <$> Db.collections db !! collection) /\
  forall d, In d (Db.find_all collection db) <-> exists id, Db.find_one collection id db = Some d.
Proof.
  unfold Db.find_all, Db.find_one.
  destruct (Db.collections db !! collection) as [col|]; cbn [fmap option_fmap option_map default mbind option_bind].
  - unfold id. split; [rewrite List.length_map; apply length_map_to_list|].
    intros d. apply in_map_snd_map_to_list.
  - split; [reflexivity|]. intros d. split; [intros []|intros [id H]; discriminate].
Qed.

(** X16. [delete] reports whether the document existed, removes it, leaves
    every other document, the schemas, the key and the set of collections
    unchanged, and emits a sync and a [doc.deleted] event only when it
    deleted something; otherwise the state is unchanged. *)
Theorem delete_spec (collection id : string) (db : Db.Database) :
  let '(deleted, db', effs) := Db.delete collection id db in
  deleted = bool_decide (is_Some (Db.find_one collection id db)) /\
  Db.find_one collection id db' = None /\
  (forall c' id', (c', id') <> (collection, id) ->
     Db.find_one c' id' db' = Db.find_one c' id' db) /\
  Db.schemas db' = Db.schemas db /\ Db.encryption_key db' = Db.encryption_key db /\
  dom (Db.collections db') = dom (Db.collections db) /\
  effs = (if deleted then [Db.sync db'; Db.Broadcast "doc.deleted" collection None (Some id)]
          else []) /\
  (deleted = false -> db' = db).
Proof.
  unfold Db.delete, Db.find_one.
  destruct (Db.collections db !! collection) as [col|] eqn:Ec; cbn [mbind option_bind].
  - destruct (col !! id) as [doc|] eqn:Ei.
    + unfold Db.set_collections. cbn [Db.collections Db.schemas Db.encryption_key].
      rewrite bool_decide_true by (eexists; reflexivity).
      split; [reflexivity|]. split.
      { rewrite lookup_insert_eq. cbn. apply lookup_delete_eq. }
      split.
      { intros c' id' Hne. destruct (String.eq_dec c' collection) as [->|Hc].
        - rewrite lookup_insert_eq, Ec. cbn. apply lookup_delete_ne. congruence.
        - rewrite lookup_insert_ne by congruence. reflexivity. }
      split; [reflexivity|]. split; [reflexivity|]. split.
      { rewrite dom_insert_L. apply (elem_of_dom_2 _ _ _) in Ec. set_solver. }
      split; [reflexivity|discriminate].
    + rewrite bool_decide_false by (intros [? H]; discriminate).
      rewrite Ec. cbn. rewrite Ei. repeat split; auto.
  - rewrite bool_decide_false by (intros [? H]; discriminate).
    rewrite Ec. cbn. repeat split; auto.
Qed.

(** X17. After [migrate_system_defaults] the [_ports] schema exists and the
    [_settings] collection is non-empty and each of its documents has every
    key of the settings defaults. *)
Theorem migrate_fills_defaults (rnd : list byte) (db : Db.Database) :
  let db' := Db.migrate_system_defaults rnd db in
  is_Some (Db.schemas db' !! "_ports") /\
  exists col, Db.collections db' !! "_settings" = Some col /\ size col <> 0%nat /\
    forall id d, col !! id = Some d ->
      forall k v, In (k, v) Db.settings_defaults -> doc_contains k d = true.
Proof.
  cbv zeta. unfold Db.migrate_system_defaults.
  destruct (ensure_settings_spec rnd (Db.ensure_internal_collections db))
    as (Hs & _ & _ & col' & Hc & Hn & Hf & _).
  split.
  - rewrite Hs. apply (proj1 (proj2 (proj2 (proj2 (ensure_internal_frame db))))).
  - exists col'. split; [exact Hc|]. split; [exact Hn|exact Hf].
Qed.

(** X18. When [_settings] has documents, the migration keeps exactly those
    ids, keeps every value already present in a document, and adds the
    default only for the keys a document lacks. *)
Theorem migrate_settings_existing (rnd : list byte) (db : Db.Database) :
  size (default ∅ (Db.collections db !! "_settings")) <> 0%nat ->
  let db' := Db.migrate_system_defaults rnd db in
  (forall id, is_Some (Db.find_one "_settings" id db') <-> is_Some (Db.find_one "_settings" id db)) /\
  (forall id d d' k, Db.find_one "_settings" id db = Some d -> Db.find_one "_settings" id db' = Some d' ->
     doc_get k d' = match doc_get k d with Some v => Some v | None => doc_get k Db.settings_defaults end).
Proof.
  intros Hne. cbv zeta. unfold Db.migrate_system_defaults.
  destruct (ensure_settings_spec rnd (Db.ensure_internal_collections db))
    as (_ & _ & _ & col' & Hc & _ & _ & Hold & _).
  rewrite (migrate_settings_lookup db) in Hold.
  unfold Db.find_one. rewrite Hc.
  destruct (Db.collections db !! "_settings") as [col|]; [|cbn in Hne; exfalso; apply Hne, map_size_empty].
  change (default ∅ (Some col)) with col in Hne.
  rewrite (Hold Hne). cbn [mbind option_bind]. split.
  - intros id. rewrite lookup_fmap. destruct (col !! id); cbn.
    + split; intros _; eexists; reflexivity.
    + split; intros [? H]; discriminate.
  - intros id d d' k Hd Hd'. rewrite lookup_fmap, Hd in Hd'.
    change (Some (fill_defaults d) = Some d') in Hd'.
    assert (E : d' = fill_defaults d) by congruence. rewrite E.
    unfold fill_defaults. apply doc_get_fold_set_default.
Qed.

Lemma migrate_settings_existing_witness :
  let db := custom_settings_db in
  size (default ∅ (Db.collections db !! "_settings")) <> 0%nat /\
  let db' := Db.migrate_system_defaults [Byte.x01] db in
  (forall id, is_Some (Db.find_one "_settings" id db') <-> is_Some (Db.find_one "_settings" id db)) /\
  (forall id d d' k, Db.find_one "_settings" id db = Some d -> Db.find_one "_settings" id db' = Some d' ->
     doc_get k d' = match doc_get k d with Some v => Some v | None => doc_get k Db.settings_defaults end).
Proof.
  intros db.
  assert (H : size (default ∅ (Db.collections db !! "_settings")) <> 0%nat)
    by (unfold db; vm_compute; discriminate).
  split; [exact H|]. exact (migrate_settings_existing [Byte.x01] db H).
Defined.

(** X19. When [_settings] is missing or empty, the migration makes it a
    single document with the defaults, stored under a fresh random id. *)
Theorem migrate_settings_fresh (rnd : list byte) (db : Db.Database) :
  size (default ∅ (Db.collections db !! "_settings")) = 0%nat ->
  Db.collections (Db.migrate_system_defaults rnd db) !! "_settings" =
  Some {[Crypto.random_hex 12 rnd := Db.settings_defaults]}.
Proof.
  intros Hz. unfold Db.migrate_system_defaults.
  destruct (ensure_settings_spec rnd (Db.ensure_internal_collections db))
    as (_ & _ & _ & col' & Hc & _ & _ & _ & Hnew).
  rewrite Hc, Hnew; [reflexivity|].
  rewrite (migrate_settings_lookup db). apply map_size_empty_iff. exact Hz.
Qed.

Lemma migrate_settings_fresh_witness :
  size (default ∅ (Db.collections (Db.new []) !! "_settings")) = 0%nat /\
  Db.collections (Db.migrate_system_defaults [] (Db.new [])) !! "_settings" =
  Some {[Crypto.random_hex 12 [] := Db.settings_defaults]}.
Proof.
  assert (H : size (default ∅ (Db.collections (Db.new []) !! "_settings")) = 0%nat)
    by (vm_compute; reflexivity).
  split; [exact H|]. exact (migrate_settings_fresh [] (Db.new []) H).
Defined.

(** X20. The migration changes no collection other than [_ports] and
    [_settings], no schema other than [_ports] (in particular it never adds
    a [_settings] schema), and not the key; when the [_ports] schema exists,
    [_ports] is untouched. *)
Theorem migrate_frame (rnd : list byte) (db : Db.Database) :
  let db' := Db.migrate_system_defaults rnd db in
  (forall c, c <> "_ports" -> c <> "_settings" -> Db.collections db' !! c = Db.collections db !! c) /\
  (forall c, c <> "_ports" -> Db.schemas db' !! c = Db.schemas db !! c) /\
  Db.encryption_key db' = Db.encryption_key db /\
  (is_Some (Db.schemas db !! "_ports") ->
     Db.collections db' !! "_ports" = Db.collections db !! "_ports" /\
     Db.schemas db' !! "_ports" = Db.schemas db !! "_ports").
Proof.
  cbv zeta. unfold Db.migrate_system_defaults.
  destruct (ensure_settings_spec rnd (Db.ensure_internal_collections db))
    as (Hs & Hk & Hc & _).
  destruct (ensure_internal_frame db) as (Ic & Is & Ik & _ & Iid).
  split; [|split; [|split]].
  - intros c H1 H2. rewrite Hc by exact H2. apply Ic, H1.
  - intros c H1. rewrite Hs. apply Is, H1.
  - rewrite Hk. exact Ik.
  - intros Hp. rewrite (Iid Hp) in Hc, Hs |- *. split; [apply Hc; discriminate|rewrite Hs; reflexivity].
Qed.

(** X21. Running the migration a second time, with any random source,
    changes nothing. *)
Theorem migrate_idempotent (rnd rnd' : list byte) (db : Db.Database) :
  Db.migrate_system_defaults rnd' (Db.migrate_system_defaults rnd db) =
  Db.migrate_system_defaults rnd db.
Proof.
  set (db1 := Db.ensure_internal_collections db).
  assert (Hp : is_Some (Db.schemas db1 !! "_ports"))
    by apply (proj1 (proj2 (proj2 (proj2 (ensure_internal_frame db))))).
  unfold Db.migrate_system_defaults at 2 3. fold db1.
  destruct (ensure_settings_spec rnd db1) as (Hs & _ & _ & col' & Hc & Hn & Hf & _).
  unfold Db.migrate_system_defaults.
  rewrite (proj2 (proj2 (proj2 (proj2 (ensure_internal_frame _))))) by (rewrite Hs; exact Hp).
  apply (ensure_settings_filled rnd' _ col' Hc Hn Hf).
Qed.

(** X22. [doc_to_json_for_collection] for [_users] writes the pairs of
    the document other than the one keyed [password], in iteration order:
    its text is that of the document with the password removed. *)
Theorem users_json_omits_password (f64 : Z -> string) (doc : Document) :
  Db.doc_to_json_for_collection f64 "_users" doc =
  Db.doc_to_json_for_collection f64 "_users" (List.filter not_password doc).
Proof. apply users_json_filter. Qed.

(** X23. Changing the value of the [password] key of a [_users] document
    that has one does not change its JSON text. *)
Theorem users_json_password_update (f64 : Z -> string) (v : Value) (doc : Document) :
  doc_contains "password" doc = true ->
  Db.doc_to_json_for_collection f64 "_users" (doc_insert "password" v doc) =
  Db.doc_to_json_for_collection f64 "_users" doc.
Proof.
  intros _. rewrite users_json_filter, filter_doc_insert_password.
  symmetry. apply users_json_filter.
Qed.

Lemma users_json_password_update_witness :
  doc_contains "password" [("email", VString "a"); ("password", VString "x")] = true /\
  Db.doc_to_json_for_collection (fun _ => "0") "_users"
    (doc_insert "password" (VString "y") [("email", VString "a"); ("password", VString "x")]) =
  Db.doc_to_json_for_collection (fun _ => "0") "_users"
    [("email", VString "a"); ("password", VString "x")].
Proof.
  assert (H : doc_contains "password" [("email", VString "a"); ("password", VString "x")] = true)
    by reflexivity.
  split; [exact H|]. exact (users_json_password_update _ (VString "y") _ H).
Defined.

(** X24. The delete-collection endpoint refuses a request that fails the
    admin check with 401; the store and the effects are then those the
    check leaves ([auth_effect]: nothing, or the removal of an expired
    session), and no collection or schema changes. On a request that
    passes the check it answers 400 without change for a name starting
    with ['_'], and otherwise answers 200, removes the collection and its
    schema, keeps all others and emits a sync and a [collection.deleted]
    event. *)
Theorem api_delete_collection_spec (token : string) (ta : Z) (name : string)
    (db : Db.Database) :
  let '(admin, db1, e1) := Db.require_admin token ta db in
  (admin = false ->
   Db.api_delete_collection token ta name db = (Db.unauthorized, db1, e1) /\
   Db.auth_effect db db1 e1) /\
  (admin = true -> Db.starts_with_underscore name = true ->
   Db.api_delete_collection token ta name db =
     (Db.bad_request "Cannot delete this collection", db, [])) /\
  (admin = true -> Db.starts_with_underscore name = false ->
   let '(r, db', effs) := Db.api_delete_collection token ta name db in
   r = Db.ok Db.deleted_true /\
   Db.collections db' !! name = None /\ Db.schemas db' !! name = None /\
   (forall c, c <> name -> Db.collections db' !! c = Db.collections db !! c /\
                           Db.schemas db' !! c = Db.schemas db !! c) /\
   effs = [Db.sync db'; Db.Broadcast "collection.deleted" name None None]).
Proof.
  unfold Db.api_delete_collection.
  pose proof (require_admin_effect token ta db) as Hr.
  destruct (Db.require_admin token ta db) as [[admin db1] e1].
  destruct Hr as [Hok Heff].
  split; [|split].
  - intros Ha. subst admin. split; [reflexivity|exact Heff].
  - intros Ha Hu. destruct (Hok Ha) as [-> ->]. subst admin. cbn [negb].
    unfold Db.delete_collection. rewrite Hu. reflexivity.
  - intros Ha Hu. destruct (Hok Ha) as [-> ->]. subst admin. cbn [negb].
    unfold Db.delete_collection. rewrite Hu. cbn [Db.collections Db.schemas app].
    split; [reflexivity|].
    split; [apply lookup_delete_eq|]. split; [apply lookup_delete_eq|]. split; [|reflexivity].
    intros c Hc. split; apply lookup_delete_ne; congruence.
Qed.

Lemma api_delete_collection_spec_witness :
  (Db.require_admin "tok" 500 demo_db).1.1 = true /\
  Db.starts_with_underscore "notes" = false /\
  (Db.collections (Db.api_delete_collection "tok" 500 "notes" demo_db).1.2 !! "notes" = None) /\
  (Db.require_admin "tok" 2000 demo_db).1.1 = false /\
  Db.api_delete_collection "tok" 2000 "notes" demo_db =
    (Db.unauthorized, (Db.require_admin "tok" 2000 demo_db).1.2,
     (Db.require_admin "tok" 2000 demo_db).2).
Proof.
  assert (Ha : (Db.require_admin "tok" 500 demo_db).1.1 = true) by (vm_compute; reflexivity).
  assert (Hb : (Db.require_admin "tok" 2000 demo_db).1.1 = false) by (vm_compute; reflexivity).
  assert (Hu : Db.starts_with_underscore "notes" = false) by reflexivity.
  pose proof (api_delete_collection_spec "tok" 500 "notes" demo_db) as H1.
  pose proof (api_delete_collection_spec "tok" 2000 "notes" demo_db) as H2.
  split; [exact Ha|]. split; [exact Hu|]. split.
  - revert H1 Ha. destruct (Db.require_admin "tok" 500 demo_db) as [[a1 d1] e1].
    cbn [fst snd]. intros [_ [_ H1]] Ha. specialize (H1 Ha Hu). revert H1.
    destruct (Db.api_delete_collection "tok" 500 "notes" demo_db) as [[r d'] effs].
    cbn [fst snd]. intros [_ [H1 _]]. exact H1.
  - revert H2 Hb. destruct (Db.require_admin "tok" 2000 demo_db) as [[a2 d2] e2].
    cbn [fst snd]. intros [H2 _] Hb. split; [exact Hb|]. exact (proj1 (H2 Hb)).
Defined.

(** X25. Every document endpoint (list, get, create, update, delete)
    answers 401 to a request whose token fails [require_auth], and to a
    request on a collection whose name starts with ['_'] whose token passes
    [require_auth] but fails [require_admin]. The store and the effects are
    then those the failed check leaves ([auth_effect]: nothing, or the
    removal of an expired session from [_sessions] with its write and
    [doc.deleted] event); no document is read, written or deleted
    otherwise. *)
Theorem document_endpoints_guard (f64 : Z -> string) (token : string) (ta tb : Z)
    (collection id : string) (doc updates : Document) (rnd : list byte) (t1 t2 t : Z)
    (db : Db.Database) :
  (let '(auth, db1, e1) := Db.require_auth token ta db in
   auth = false ->
   Db.auth_effect db db1 e1 /\
   Db.api_list_documents f64 token ta tb collection db = (Db.unauthorized, db1, e1) /\
   Db.api_get_document f64 token ta tb collection id db = (Db.unauthorized, db1, e1) /\
   Db.api_create_document token ta tb collection doc rnd t1 t2 db = (Db.unauthorized, db1, e1) /\
   Db.api_update_document token ta tb collection id updates t db = (Db.unauthorized, db1, e1) /\
   Db.api_delete_document token ta tb collection id db = (Db.unauthorized, db1, e1)) /\
  (Db.is_private_collection collection = true ->
   (Db.require_auth token ta db).1.1 = true ->
   let '(admin, db2, e2) := Db.require_admin token tb db in
   admin = false ->
   Db.auth_effect db db2 e2 /\
   Db.api_list_documents f64 token ta tb collection db = (Db.unauthorized, db2, e2) /\
   Db.api_get_document f64 token ta tb collection id db = (Db.unauthorized, db2, e2) /\
   Db.api_create_document token ta tb collection doc rnd t1 t2 db = (Db.unauthorized, db2, e2) /\
   Db.api_update_document token ta tb collection id updates t db = (Db.unauthorized, db2, e2) /\
   Db.api_delete_document token ta tb collection id db = (Db.unauthorized, db2, e2)).
Proof.
  unfold Db.api_list_documents, Db.api_get_document, Db.api_create_document,
    Db.api_update_document, Db.api_delete_document.
  pose proof (require_auth_effect token ta db) as Hr.
  destruct (Db.require_auth token ta db) as [[auth db1] e1].
  destruct Hr as [Hok Heff]. split.
  - intros Ha. subst auth. cbn [negb]. split; [exact Heff|]. repeat split.
  - cbn [fst snd]. intros Hp Ha. destruct (Hok Ha) as [-> ->]. subst auth. cbn [negb].
    unfold Db.private_denied. rewrite Hp.
    pose proof (require_admin_effect token tb db) as Hr'.
    destruct (Db.require_admin token tb db) as [[admin db2] e2].
    destruct Hr' as [_ Heff']. intros Hb. subst admin. cbn [negb app].
    split; [exact Heff'|]. repeat split.
Qed.

Lemma document_endpoints_guard_witness :
  let f64 := fun _ : Z => "0" in
  (Db.require_auth "tok" 2000 demo_db).1.1 = false /\
  Db.api_delete_document "tok" 2000 2000 "notes" "030303030303030303030303" demo_db =
    (Db.unauthorized, (Db.require_auth "tok" 2000 demo_db).1.2,
     (Db.require_auth "tok" 2000 demo_db).2) /\
  Db.is_private_collection "_users" = true /\
  (Db.require_auth "utok" 500 demo_db).1.1 = true /\
  (Db.require_admin "utok" 500 demo_db).1.1 = false /\
  Db.api_list_documents f64 "utok" 500 500 "_users" demo_db =
    (Db.unauthorized, (Db.require_admin "utok" 500 demo_db).1.2,
     (Db.require_admin "utok" 500 demo_db).2).
Proof.
  intros f64.
  assert (Ha : (Db.require_auth "tok" 2000 demo_db).1.1 = false) by (vm_compute; reflexivity).
  assert (Hp : Db.is_private_collection "_users" = true) by reflexivity.
  assert (Hu : (Db.require_auth "utok" 500 demo_db).1.1 = true) by (vm_compute; reflexivity).
  assert (Hb : (Db.require_admin "utok" 500 demo_db).1.1 = false) by (vm_compute; reflexivity).
  pose proof (document_endpoints_guard f64 "tok" 2000 2000 "notes" "030303030303030303030303"
                [] [] [] 0 0 0 demo_db) as [H1 _].
  pose proof (document_endpoints_guard f64 "utok" 500 500 "_users" "030303030303030303030303"
                [] [] [] 0 0 0 demo_db) as [_ H2].
  split; [exact Ha|]. split.
  - revert H1 Ha. destruct (Db.require_auth "tok" 2000 demo_db) as [[a1 d1] e1].
    cbn [fst snd]. intros H1 Ha. exact (proj2 (proj2 (proj2 (proj2 (proj2 (H1 Ha)))))).
  - split; [exact Hp|]. split; [exact Hu|]. split; [exact Hb|].
    specialize (H2 Hp Hu). revert H2 Hb.
    destruct (Db.require_admin "utok" 500 demo_db) as [[a2 d2] e2].
    cbn [fst snd]. intros H2 Hb. exact (proj1 (proj2 (H2 Hb))).
Defined.

